(** * ComputeFlareStdAtom: per-atom uncertainty from descriptor derivatives

    A shallow embedding of [lammps/compute_flare_std_atom.cpp]: the potential
    file loader ([read_file], [grab]), the per-step evaluation
    ([compute_peratom]) and the reverse-communication pair
    ([pack_reverse_comm], [unpack_reverse_comm]).

    Conventions.
    - A C++ [double] is an element of an abstract carrier [num] with the
      operations the source applies to it ([DoubleOps]).  Statements that
      only move values around hold for every carrier; algebraic identities
      are proved for carriers that form a commutative ring, i.e. for exact
      arithmetic.  IEEE rounding is outside this development.
    - A C array reached through a pointer is a total function from indices
      to values: the source never checks a bound, and neither does a read
      here.  Writes are functional updates.
    - The header integers of the potential file are C [int]s: integers with
      32-bit two's complement wrap-around ([Int]).
    - The descriptor library (single_bond, B2_descriptor) is a parameter.
    - One process is modelled: what rank 0 reads is what every rank holds
      after the broadcasts.
    - [error->all] and [error->one] end the run: the outcome [Error].
      Where the source reaches undefined behaviour that the loader can be
      driven into by its input (a store past an allocation, a null token),
      the outcome is [Fault]. *)

From Stdlib Require Import ZArith List String Ascii Bool Arith Lia.
From Stdlib Require Import Ring Ring_theory.
Import ListNotations.

(** ** Arithmetic on doubles *)

Class DoubleOps (num : Type) : Type := {
  dzero : num;                    (* 0.0 *)
  dunit : num;                    (* 1.0 *)
  dadd  : num -> num -> num;
  dsub  : num -> num -> num;
  dmul  : num -> num -> num;
  dopp  : num -> num;
  ddiv2 : num -> num;             (* x / 2 *)
  dlt   : num -> num -> bool;     (* x < y *)
  atof  : string -> num           (* the C library's conversion *)
}.

Declare Scope num_scope.
Delimit Scope num_scope with num.
Infix "+" := dadd : num_scope.
Infix "-" := dsub : num_scope.
Infix "*" := dmul : num_scope.

(** The literal [2] of [... * 2], converted to double. *)
Definition dtwo {num} `{DoubleOps num} : num := dadd dunit dunit.

(** Exact arithmetic: the operations form a commutative ring. *)
Definition ExactArith (num : Type) `{DoubleOps num} : Prop :=
  ring_theory dzero dunit dadd dmul dsub dopp (@eq num).

(** ** C [int] *)

Module Int.
Definition wrap (z : Z) : Z := ((z + 2 ^ 31) mod 2 ^ 32 - 2 ^ 31)%Z.
Definition add (a b : Z) : Z := wrap (a + b).
Definition mul (a b : Z) : Z := wrap (a * b).
(* C division truncates towards zero. *)
Definition div (a b : Z) : Z := wrap (Z.quot a b).
Definition in_range (z : Z) : Prop := (- 2 ^ 31 <= z < 2 ^ 31)%Z.
End Int.

(** ** Loops and arrays *)

(** [for (i = lo; i < lo + n; i++) s = body i s]. *)
Fixpoint for_ {S : Type} (n lo : nat) (body : nat -> S -> S) (s : S) : S :=
  match n with
  | O => s
  | Datatypes.S n' => for_ n' (Datatypes.S lo) body (body lo s)
  end.

(** A two-dimensional array of doubles ([double **], [Eigen::MatrixXd]). *)
Definition array2 (num : Type) : Type := nat -> nat -> num.

Definition aset2 {num} (a : array2 num) (r c : nat) (v : num) : array2 num :=
  fun r' c' => if (r' =? r) && (c' =? c) then v else a r' c'.

(** Row [i * 3 + comp] of the derivative table: component [comp] of atom
    [i]; also row [n_count * 3 + comp] of B2_env_dervs. *)
Definition row (i comp : nat) : nat := i * 3 + comp.

(** A one-dimensional buffer of doubles ([double *]). *)
Definition array1 (num : Type) : Type := nat -> num.

Definition aset1 {num} (a : array1 num) (k : nat) (v : num) : array1 num :=
  fun k' => if k' =? k then v else a k'.

(** [sumn n f] is [f 0 + f 1 + ... + f (n-1)], added left to right from 0. *)
Fixpoint sumn {num} `{DoubleOps num} (n : nat) (f : nat -> num) : num :=
  match n with
  | O => dzero
  | S n' => (sumn n' f + f n')%num
  end.

(** ** Outcomes of the loader *)

Inductive fault : Type :=
| NullToken       (* atof(NULL): strtok found no token on the line *)
| UninitLine      (* fgets failed before any line was read *)
| HeapOverrun (allocated written : nat).  (* stores beyond the allocation *)

Inductive outcome (A : Type) : Type :=
| Ok (a : A)
| Error (msg : string)     (* error->all / error->one: the run is aborted *)
| Fault (f : fault).       (* undefined behaviour reached *)

Arguments Ok {A} a.
Arguments Error {A} msg.
Arguments Fault {A} f.

(** ** Tokens of a line: strtok(line, " \t\n\r\f") *)

Definition delimiters : list ascii :=
  [" "%char; ascii_of_nat 9; ascii_of_nat 10; ascii_of_nat 13; ascii_of_nat 12].

Definition is_delim (c : ascii) : bool := existsb (Ascii.eqb c) delimiters.

(** All tokens of [s], in order; [cur] is the token being read. *)
Fixpoint strtok_from (s cur : string) : list string :=
  match s with
  | EmptyString => if String.eqb cur "" then [] else [cur]
  | String c s' =>
      if is_delim c
      then if String.eqb cur "" then strtok_from s' ""
           else cur :: strtok_from s' ""
      else strtok_from s' (cur ++ String c "")
  end.

Definition strtok_all (line : string) : list string := strtok_from line "".

(** The C string left in the line buffer once strtok has walked it: strtok
    writes a terminator right after the first token. *)
Fixpoint after_strtok (s : string) (in_token : bool) : string :=
  match s with
  | EmptyString => EmptyString
  | String c s' =>
      if is_delim c
      then if in_token then EmptyString else String c (after_strtok s' false)
      else String c (after_strtok s' true)
  end.

(** ** The potential file *)

Inductive radial_basis : Type := chebyshev.
Inductive cutoff_fn : Type := quadratic_cutoff | cos_cutoff.

Section Loader.
Context {num : Type} `{DoubleOps num}.

(** What the reader finds in an opened file: the header fields as sscanf
    stores them, and the remaining lines as successive fgets calls return
    them. *)
Record potential_file : Type := {
  f_radial_string : string;
  f_n_species : Z;
  f_n_max : Z;
  f_l_max : Z;
  f_beta_size : Z;
  f_cutoff_string : string;
  f_cutoff : num;
  f_tail : list string
}.

(** *** grab *)

Record grab_state : Type := {
  g_fptr : list string;      (* lines not yet read *)
  g_line : option string;    (* char line[MAXLINE]; None: never written *)
  g_i : nat;                 (* int i *)
  g_list : list num          (* list[0], ..., list[i-1] as stored so far *)
}.

(** One pass of the body of [while (i < n)]. *)
Definition grab_body (st : grab_state) : grab_state + fault :=
  let (line, rest) :=
    match g_fptr st with
    | l :: r => (Some l, r)
    | [] => (g_line st, [])          (* fgets fails, the buffer is kept *)
    end in
  match line with
  | None => inr UninitLine
  | Some l =>
      match strtok_all l with
      | [] => inr NullToken          (* list[i++] = atof(NULL) *)
      | ptr :: more =>
          inl {| g_fptr := rest;
                 g_line := Some (after_strtok l false);
                 g_i := g_i st + 1 + List.length more;
                 g_list := g_list st ++ atof ptr :: map atof more |}
      end
  end.

(** [while (i < n)], with one unit of fuel per pass. *)
Fixpoint grab_loop (fuel : nat) (n : Z) (st : grab_state)
  : outcome grab_state :=
  match fuel with
  | O => Ok st
  | S fuel' =>
      if (Z.of_nat (g_i st) <? n)%Z
      then match grab_body st with
           | inl st' => grab_loop fuel' n st'
           | inr f => Fault f
           end
      else Ok st
  end.

(** Every pass stores at least one value, so [n] passes are enough: the
    loop always ends through its guard ([grab_exit] below). *)
Definition grab (fptr : list string) (n : Z) : outcome grab_state :=
  grab_loop (Z.to_nat n) n
    {| g_fptr := fptr; g_line := None; g_i := 0; g_list := [] |}.

(** *** Filling the beta matrices *)

Definition Zero : array2 num := fun _ _ => dzero.

(** Body of the innermost loop; the state is [(beta_count, beta_matrix)].
    [nth beta_count beta dzero] is the read beta[beta_count]; the index
    stays inside the array when the header arithmetic does not overflow
    ([loaded_beta_length] below). *)
Definition fill_entry (beta : list num) (i j : nat)
  (st : nat * array2 num) : nat * array2 num :=
  let (beta_count, beta_matrix) := st in
  let beta_matrix' :=
    if i =? j
    then aset2 beta_matrix i j (nth beta_count beta dzero)
    else if negb (i =? j)
    then let beta_val := ddiv2 (nth beta_count beta dzero) in
         aset2 (aset2 beta_matrix i j beta_val) j i beta_val
    else beta_matrix in
  (S beta_count, beta_matrix').

Definition fill_matrix (beta : list num) (n_descriptors : nat)
  (st : nat * array2 num) : nat * array2 num :=
  for_ n_descriptors 0
    (fun i => for_ (n_descriptors - i) i (fun j => fill_entry beta i j)) st.

(** The state of the species loop is [(beta_count, beta_matrices)]. *)
Definition fill_beta_matrices (beta : list num) (n_species n_descriptors : nat)
  : nat * list (array2 num) :=
  for_ n_species 0
    (fun _ (st : nat * list (array2 num)) =>
       let (beta_count, beta_matrices) := st in
       let (beta_count', beta_matrix) :=
         fill_matrix beta n_descriptors (beta_count, Zero) in
       (beta_count', beta_matrices ++ [beta_matrix]))
    (0, []).

(** *** read_file *)

Record loaded : Type := {
  n_species : Z;
  n_max : Z;
  l_max : Z;
  beta_size : Z;
  cutoff : num;
  n_descriptors : Z;
  basis_function : option radial_basis;   (* None: never assigned *)
  radial_hyps : list num;
  cutoff_function : option cutoff_fn;     (* None: never assigned *)
  beta : list num;
  beta_matrices : list (array2 num)
}.

Definition descriptor_count (pf : potential_file) : Z :=
  let n_radial := Int.mul (f_n_max pf) (f_n_species pf) in
  Int.mul (Int.div (Int.mul n_radial (Int.add n_radial 1)) 2)
          (Int.add (f_l_max pf) 1).

Definition beta_check (pf : potential_file) : Z :=
  let n_descriptors := descriptor_count pf in
  Int.div (Int.mul n_descriptors (Int.add n_descriptors 1)) 2.

Definition read_file (filename : string) (fptr : option potential_file)
  : outcome loaded :=
  match fptr with
  | None => Error (String.append "Cannot open variance file " filename)
  | Some pf =>
      if negb (beta_check pf =? f_beta_size pf)%Z
      then Error "Beta size doesn't match the number of descriptors."
      else
        let chosen_basis :=
          if String.eqb (f_radial_string pf) "chebyshev"
          then (Some chebyshev, [dzero; f_cutoff pf])
          else (None, []) in
        let chosen_cutoff :=
          if String.eqb (f_cutoff_string pf) "quadratic"
          then Some quadratic_cutoff
          else if String.eqb (f_cutoff_string pf) "cosine"
          then Some cos_cutoff
          else None in
        let n := Int.mul (f_beta_size pf) (f_n_species pf) in
        match grab (f_tail pf) n with
        | Error msg => Error msg
        | Fault f => Fault f
        | Ok st =>
            if Z.to_nat n <? g_i st
            then Fault (HeapOverrun (Z.to_nat n) (g_i st))
            else
              Ok {| n_species := f_n_species pf;
                    n_max := f_n_max pf;
                    l_max := f_l_max pf;
                    beta_size := f_beta_size pf;
                    cutoff := f_cutoff pf;
                    n_descriptors := descriptor_count pf;
                    basis_function := fst chosen_basis;
                    radial_hyps := snd chosen_basis;
                    cutoff_function := chosen_cutoff;
                    beta := g_list st;
                    beta_matrices :=
                      snd (fill_beta_matrices (g_list st)
                             (Z.to_nat (f_n_species pf))
                             (Z.to_nat (descriptor_count pf))) |}
        end
  end.

(** No intermediate result of the header arithmetic leaves the range of
    [int]. *)
Definition header_in_range (pf : potential_file) : Prop :=
  let R := (f_n_max pf * f_n_species pf)%Z in
  let D := ((R * (R + 1) ÷ 2) * (f_l_max pf + 1))%Z in
  Int.in_range R /\ Int.in_range (R + 1) /\ Int.in_range (R * (R + 1)) /\
  Int.in_range (f_l_max pf + 1) /\ Int.in_range D /\
  Int.in_range (D + 1) /\ Int.in_range (D * (D + 1)).

End Loader.

(** ** The compute: per-step evaluation and reverse communication *)

(** Fields of the Compute base class assigned by the constructor. *)
Record compute_flags : Type := {
  peratom_flag : nat;
  size_peratom_cols : nat;
  timeflag : nat;
  comm_reverse : nat       (* doubles per atom in a reverse communication *)
}.

Definition constructor_flags : compute_flags :=
  {| peratom_flag := 1; size_peratom_cols := 0; timeflag := 1;
     comm_reverse := 1 |}.

Section Compute.
Context {num : Type} `{DoubleOps num}.

(** What the host engine provides at a step: the atom arrays, the neighbor
    list, and the contents of memory it hands out on allocation. *)
Record host : Type := {
  atom_nmax : nat;
  nlocal : nat;
  nghost : nat;
  newton : bool;                    (* force->newton *)
  x : array2 num;                   (* atom->x *)
  type : nat -> nat;                (* atom->type *)
  inum : nat;                       (* list->inum *)
  ilist : nat -> nat;               (* list->ilist: the host assigns the
                                       entries below inum only *)
  numneigh : nat -> nat;
  firstneigh : nat -> nat -> nat;
  fresh_stds : array2 num;          (* memory->create leaves the new *)
  fresh_desc_derv : array2 num      (* arrays unassigned             *)
}.

Record compute : Type := {
  potential : loaded (num := num);  (* members set by read_file *)
  nmax : nat;
  stds : array2 num;
  desc_derv : array2 num
}.

Definition with_stds (c : compute) (a : array2 num) : compute :=
  {| potential := potential c; nmax := nmax c; stds := a;
     desc_derv := desc_derv c |}.

Definition with_desc_derv (c : compute) (a : array2 num) : compute :=
  {| potential := potential c; nmax := nmax c; stds := stds c;
     desc_derv := a |}.

(** Loop bound [nl < n_descriptors]. *)
Definition ndesc (c : compute) : nat := Z.to_nat (n_descriptors (potential c)).

(** The descriptor library: for atom [i] with [n_inner] neighbors inside
    the cutoff, the matrix B2_env_dervs that single_bond and B2_descriptor
    leave behind. *)
Variable B2_env_dervs_of : host -> compute -> nat -> nat -> array2 num.

(** *** Allocation *)

Definition grow (h : host) (c : compute) : compute :=
  if nmax c <? atom_nmax h
  then {| potential := potential c; nmax := atom_nmax h;
          stds := fresh_stds h; desc_derv := fresh_desc_derv h |}
  else c.

(** *** Zeroing *)

Definition ntotal (h : host) : nat :=
  if newton h then nlocal h + nghost h else nlocal h.

(** Body of the loop over [comp]: stds[i][comp] and row [i * 3 + comp]. *)
Definition zero_component (i comp : nat) (c : compute) : compute :=
  for_ (ndesc c) 0
    (fun nl c =>
       with_desc_derv c (aset2 (desc_derv c) (row i comp) nl dzero))
    (with_stds c (aset2 (stds c) i comp dzero)).

Definition zero_atom (i : nat) (c : compute) : compute :=
  for_ 3 0 (zero_component i) c.

Definition reset (h : host) (c : compute) : compute :=
  for_ (ntotal h) 0 (fun ii c => zero_atom (ilist h ii) c) c.

(** *** Accumulation *)

Definition inside_cutoff (c : compute) (delx dely delz : num) : bool :=
  let rsq := (delx * delx + dely * dely + delz * delz)%num in
  dlt rsq (cutoff (potential c) * cutoff (potential c))%num.

(** First walk over the neighbors of [i]: count those inside the cutoff. *)
Definition count_inner (h : host) (c : compute) (i : nat) : nat :=
  for_ (numneigh h i) 0
    (fun jj n_inner =>
       let j := firstneigh h i jj in
       if inside_cutoff c (x h j 0 - x h i 0)%num (x h j 1 - x h i 1)%num
            (x h j 2 - x h i 2)%num
       then S n_inner else n_inner)
    0.

(** Adding one row of B2_env_dervs to atom [i], subtracting it from [j]. *)
Definition scatter_row (c : compute) (B2_env_dervs : array2 num)
  (i j n_count : nat) (d : array2 num) : array2 num :=
  for_ 3 0
    (fun comp =>
       for_ (ndesc c) 0
         (fun nl (d : array2 num) =>
            let d1 := aset2 d (row i comp) nl
                        (d (row i comp) nl
                         + B2_env_dervs (row n_count comp) nl)%num in
            aset2 d1 (row j comp) nl
              (d1 (row j comp) nl
               - B2_env_dervs (row n_count comp) nl)%num))
    d.

(** Second walk over the neighbors of [i]; the state is
    [(n_count, desc_derv)]. *)
Definition accumulate_atom (h : host) (c : compute) (i : nat)
  (d : array2 num) : array2 num :=
  let B2_env_dervs := B2_env_dervs_of h c i (count_inner h c i) in
  snd (for_ (numneigh h i) 0
         (fun jj (st : nat * array2 num) =>
            let (n_count, d) := st in
            let j := firstneigh h i jj in
            if inside_cutoff c (x h i 0 - x h j 0)%num
                 (x h i 1 - x h j 1)%num (x h i 2 - x h j 2)%num
            then (S n_count, scatter_row c B2_env_dervs i j n_count d)
            else (n_count, d))
         (0, d)).

Definition accumulate (h : host) (c : compute) : compute :=
  with_desc_derv c
    (for_ (inum h) 0 (fun ii d => accumulate_atom h c (ilist h ii) d)
       (desc_derv c)).

(** *** Evaluation

    Atom types count from 1: [itype - 1] selects the species. *)

Definition evaluate_atom (c : compute) (i itype : nat) (s : array2 num)
  : array2 num :=
  let beta_matrix := nth (itype - 1) (beta_matrices (potential c)) Zero in
  let d := desc_derv c in
  for_ (ndesc c) 0
    (fun nl1 =>
       for_ (ndesc c - nl1) nl1
         (fun nl2 =>
            for_ 3 0
              (fun comp (s : array2 num) =>
                 if nl1 =? nl2
                 then aset2 s i comp
                        (s i comp
                         + d (row i comp) nl1 * beta_matrix nl1 nl2
                           * d (row i comp) nl2)%num
                 else aset2 s i comp
                        (s i comp
                         + d (row i comp) nl1 * beta_matrix nl1 nl2
                           * d (row i comp) nl2 * dtwo)%num)))
    s.

Definition evaluate (h : host) (c : compute) : compute :=
  with_stds c
    (for_ (inum h) 0
       (fun ii s => evaluate_atom c (ilist h ii) (type h (ilist h ii)) s)
       (stds c)).

(** *** compute_peratom *)

Definition compute_peratom (h : host) (c : compute) : compute :=
  evaluate h (accumulate h (reset h (grow h c))).

(** *** Reverse communication *)

(** The state of the loops is [(m, buf)]; the result is the returned [m]
    and the buffer. *)
Definition pack_reverse_comm (c : compute) (n first : nat) (buf : array1 num)
  : nat * array1 num :=
  for_ n first
    (fun i =>
       for_ 3 0
         (fun comp (st : nat * array1 num) =>
            let (m, buf) := st in (S m, aset1 buf m (stds c i comp))))
    (0, buf).

Definition unpack_reverse_comm (c : compute) (n : nat) (list : nat -> nat)
  (buf : array1 num) : compute :=
  with_stds c
    (snd (for_ n 0
            (fun i =>
               let j := list i in
               for_ 3 0
                 (fun comp (st : nat * array2 num) =>
                    let (m, s) := st in
                    (S m, aset2 s j comp (s j comp + buf m)%num)))
            (0, stds c))).

(** *** The reduction of the specification

    The following two definitions follow the specification, not the
    source: between accumulation and evaluation, the derivative row of
    every ghost atom is added to the row of the atom that owns it
    ([owner] maps a ghost index to the index of its owner). *)
Definition spec_fold_ghosts (owner : nat -> nat) (h : host) (c : compute)
  : compute :=
  with_desc_derv c
    (for_ (nghost h) (nlocal h)
       (fun g =>
          for_ 3 0
            (fun comp =>
               for_ (ndesc c) 0
                 (fun nl (d : array2 num) =>
                    aset2 d (row (owner g) comp) nl
                      (d (row (owner g) comp) nl + d (row g comp) nl)%num)))
       (desc_derv c)).

Definition spec_compute_peratom (owner : nat -> nat) (h : host)
  (c : compute) : compute :=
  evaluate h (spec_fold_ghosts owner h (accumulate h (reset h (grow h c)))).

(** The values a destination atom [j] receives in component [comp] from a
    buffer unpacked along [list], in buffer order. *)
Definition received (n : nat) (list : nat -> nat) (buf : array1 num)
  (j comp : nat) : Datatypes.list num :=
  map (fun i => buf (3 * i + comp))
    (filter (fun i => list i =? j) (seq 0 n)).

End Compute.

(** ** Well-formed file tails *)

(** Tokens of a run of lines, in reading order. *)
Definition tokens_of (lines : list string) : list string :=
  List.concat (map strtok_all lines).

(** The tail starts with lines, none of them blank, that hold exactly [n]
    values between them. *)
Definition well_formed_tail (tail : list string) (n : Z) : Prop :=
  exists lines rest,
    tail = (lines ++ rest)%list /\
    Forall (fun l => strtok_all l <> []) lines /\
    Z.of_nat (List.length (tokens_of lines)) = n.

(** ** Positions in the packed upper triangle *)

(** Number of pairs [(i', j)], [i' <= j < D], of the rows before row [i]:
    the value of beta_count when row [i] of a species starts, relative to
    the start of that species. *)
Fixpoint row_start (D i : nat) : nat :=
  match i with
  | O => 0
  | S i' => row_start D i' + (D - i')
  end.

(** Position of pair [(i, j)] of species [k] in the beta array. *)
Definition beta_index (D k i j : nat) : nat :=
  k * row_start D D + row_start D i + (j - i).

(** The value the source stores at position [(a, b)] when it consumes
    beta[k]: the raw value on the diagonal, half of it elsewhere. *)
Definition stored {num} `{DoubleOps num} (beta : list num) (k a b : nat)
  : num :=
  if a =? b then nth k beta dzero else ddiv2 (nth k beta dzero).

(** ** Exact arithmetic on integers, for evaluation *)

Module ExactZ.

Definition digit_of (c : ascii) : option Z :=
  let n := nat_of_ascii c in
  if (48 <=? n) && (n <=? 57) then Some (Z.of_nat (n - 48)) else None.

Fixpoint digits (s : string) (acc : Z) : Z :=
  match s with
  | EmptyString => acc
  | String c s' =>
      match digit_of c with
      | Some d => digits s' (10 * acc + d)%Z
      | None => acc
      end
  end.

(** Integer part of a decimal numeral, the part an integer carrier keeps
    of what atof reads. *)
Definition integer_part (s : string) : Z :=
  match s with
  | String "-"%char s' => (- digits s' 0)%Z
  | _ => digits s 0
  end.

#[export] Instance ops : DoubleOps Z := {|
  dzero := 0%Z;
  dunit := 1%Z;
  dadd := Z.add;
  dsub := Z.sub;
  dmul := Z.mul;
  dopp := Z.opp;
  ddiv2 := fun z => Z.quot z 2;
  dlt := Z.ltb;
  atof := integer_part
|}.

Definition exact : ExactArith Z := InitialRing.Zth.

End ExactZ.


(** ** Quadratic forms and column sums *)

Section Forms.
Context {num : Type} `{DoubleOps num}.

(** One term [d[nl1] * Sigma(nl1, nl2) * d[nl2]] of the contraction of row
    [r] of the derivative table. *)
Definition quad_term (d Sigma : array2 num) (r nl1 nl2 : nat) : num :=
  (d r nl1 * Sigma nl1 nl2 * d r nl2)%num.

(** The pairs [(nl1, nl2)], [nl1 <= nl2 < D], in the order in which the
    loops of compute_peratom visit them. *)
Definition upper_pairs (D : nat) : list (nat * nat) :=
  flat_map (fun nl1 => map (fun nl2 => (nl1, nl2)) (seq nl1 (D - nl1)))
    (seq 0 D).

(** What a visit adds: the term on the diagonal, twice the term off it. *)
Definition weighted_term (d Sigma : array2 num) (r : nat) (p : nat * nat)
  : num :=
  if fst p =? snd p
  then quad_term d Sigma r (fst p) (snd p)
  else (quad_term d Sigma r (fst p) (snd p) * dtwo)%num.

(** The weighted sum over the upper triangle as the source forms it: a
    running sum started at [v0], one addition per visited pair. *)
Definition quad_upper_from (v0 : num) (D : nat) (d Sigma : array2 num)
  (r : nat) : num :=
  fold_left (fun v p => (v + weighted_term d Sigma r p)%num) (upper_pairs D)
    v0.

Definition quad_upper (D : nat) (d Sigma : array2 num) (r : nat) : num :=
  quad_upper_from dzero D d Sigma r.

(** The full double sum [d^T Sigma d]. *)
Definition quad_full (D : nat) (d Sigma : array2 num) (r : nat) : num :=
  sumn D (fun nl1 => sumn D (fun nl2 => quad_term d Sigma r nl1 nl2)).

(** Column [nl], component [comp], of the derivative table summed over
    the atoms [0 .. nall-1]. *)
Definition column_sum (nall : nat) (d : array2 num) (comp nl : nat) : num :=
  sumn nall (fun a => d (row a comp) nl).

End Forms.

(** ** Sample inputs *)

Module Samples.
Import ExactZ.

(** Two radial channels, one species, l_max = 0: three descriptors, six
    packed values. *)
Definition three_descriptors : potential_file :=
  {| f_radial_string := "chebyshev";
     f_n_species := 1; f_n_max := 2; f_l_max := 0; f_beta_size := 6;
     f_cutoff_string := "quadratic"; f_cutoff := 5%Z;
     f_tail := ["10 20 30"; "40 50 60"]%string |}.

(** The smallest potential: one descriptor, one packed value. *)
Definition one_descriptor : potential_file :=
  {| f_radial_string := "chebyshev";
     f_n_species := 1; f_n_max := 1; f_l_max := 0; f_beta_size := 1;
     f_cutoff_string := "cosine"; f_cutoff := 4%Z;
     f_tail := ["7"]%string |}.

(** The same header announcing two packed values. *)
Definition one_descriptor_two_values : potential_file :=
  {| f_radial_string := "chebyshev";
     f_n_species := 1; f_n_max := 1; f_l_max := 0; f_beta_size := 2;
     f_cutoff_string := "cosine"; f_cutoff := 4%Z;
     f_tail := ["7 8"]%string |}.

(** One value announced, two on the line. *)
Definition one_descriptor_long_line : potential_file :=
  {| f_radial_string := "chebyshev";
     f_n_species := 1; f_n_max := 1; f_l_max := 0; f_beta_size := 1;
     f_cutoff_string := "cosine"; f_cutoff := 4%Z;
     f_tail := ["7 8"]%string |}.

(** A radial basis the loader does not know. *)
Definition unknown_basis : potential_file :=
  {| f_radial_string := "bessel";
     f_n_species := 1; f_n_max := 1; f_l_max := 0; f_beta_size := 1;
     f_cutoff_string := "cosine"; f_cutoff := 4%Z;
     f_tail := ["7"]%string |}.

(** The members read_file leaves behind for a sample file. *)
Definition load (pf : potential_file) : loaded :=
  match read_file "flare.std" (Some pf) with
  | Ok ld => ld
  | _ => {| n_species := 0; n_max := 0; l_max := 0; beta_size := 0;
            cutoff := 0%Z; n_descriptors := 0; basis_function := None;
            radial_hyps := []; cutoff_function := None; beta := [];
            beta_matrices := [] |}
  end.

(** Memory nobody has assigned yet. *)
Definition unassigned : array2 Z := fun _ _ => 9%Z.

(** The compute before its first step. *)
Definition fresh_compute (pf : potential_file) : compute :=
  {| potential := load pf; nmax := 0;
     stds := unassigned; desc_derv := unassigned |}.

(** A compute holding results: stds[i][comp] = 10 i + comp. *)
Definition numbered_compute : compute :=
  {| potential := load one_descriptor; nmax := 4;
     stds := fun i comp => Z.of_nat (10 * i + comp);
     desc_derv := unassigned |}.

(** Atom 0 at the origin, atom 1 one unit along x. *)
Definition on_x_axis : array2 Z :=
  fun a comp => if (a =? 1) && (comp =? 0) then 1%Z else 0%Z.

(** One owned atom and one ghost, the periodic image of the owned atom,
    inside the cutoff.  [ilist_buffer] is the memory behind list->ilist;
    the host has filled in its first entry only. *)
Definition atom_and_image (ilist_buffer : nat -> nat) : host :=
  {| atom_nmax := 2; nlocal := 1; nghost := 1; newton := true;
     x := on_x_axis; type := fun _ => 1;
     inum := 1; ilist := ilist_buffer;
     numneigh := fun i => if i =? 0 then 1 else 0;
     firstneigh := fun _ _ => 1;
     fresh_stds := unassigned; fresh_desc_derv := unassigned |}.

(** Two owned atoms, each the only neighbor of the other. *)
Definition two_atoms : host :=
  {| atom_nmax := 2; nlocal := 2; nghost := 0; newton := true;
     x := on_x_axis; type := fun _ => 1;
     inum := 2; ilist := fun ii => ii;
     numneigh := fun _ => 1;
     firstneigh := fun i _ => 1 - i;
     fresh_stds := unassigned; fresh_desc_derv := unassigned |}.

(** A descriptor library whose derivative rows are non-zero along x only:
    row [3 * n_count] holds [nl + 1 + i] in column [nl]. *)
Definition along_x : @host Z -> @compute Z -> nat -> nat -> array2 Z :=
  fun _ _ i _ r nl => if r mod 3 =? 0 then Z.of_nat (nl + 1 + i) else 0%Z.

End Samples.

(** ** Construction, coefficients and the pair-validity query *)

Section Setup.
Context {num : Type} `{DoubleOps num}.

(** The members behind [allocate]: the flag, and the two arrays of size
    [(ntypes + 1) x (ntypes + 1)]. *)
Record setup : Type := {
  allocated : bool;
  setflag : nat -> nat -> Z;        (* int **setflag *)
  cutsq : array2 num
}.

(** What the constructor and coeff take from their surroundings: the number
    of atom types, the contents of the memory handed out by memory->create,
    and the potential files that can be opened. *)
Record environment : Type := {
  atom_ntypes : nat;
  fresh_setflag : nat -> nat -> Z;
  fresh_cutsq : array2 num;
  open_potential : string -> option (@potential_file num)
}.

Definition allocate (env : environment) (s : setup) : setup :=
  {| allocated := true;
     setflag := for_ (atom_ntypes env) 1
                  (fun i (sf : nat -> nat -> Z) => aset2 sf i i 1%Z)
                  (fresh_setflag env);
     cutsq := fresh_cutsq env |}.

Definition settings (narg : Z) : outcome unit :=
  if (0 <? narg)%Z then Error "Illegal compute command" else Ok tt.

(** [arg] is [char **arg]; coeff reads arg[0], arg[1], arg[2]. *)
Definition coeff (env : environment) (narg : Z) (arg : nat -> string)
  (s : setup) : outcome (setup * loaded) :=
  let s := if allocated s then s else allocate env s in
  if negb (narg =? 3)%Z
  then Error "Incorrect args for compute coefficients"
  else if negb (String.eqb (arg 0) "*") || negb (String.eqb (arg 1) "*")
  then Error "Incorrect args for compute coefficients"
  else match read_file (arg 2) (open_potential env (arg 2)) with
       | Ok ld => Ok (s, ld)
       | Error msg => Error msg
       | Fault f => Fault f
       end.

(** The constructor: the flags, then settings, then coeff.  [s0] holds the
    members as they are when the body starts ([setflag] and [cutsq] are
    set to null there; the class declaration decides [allocated]). *)
Definition ComputeFlareStdAtom (env : environment) (s0 : setup) (narg : Z)
  (arg : nat -> string) : outcome (compute_flags * setup * loaded) :=
  match settings narg with
  | Error msg => Error msg
  | Fault f => Fault f
  | Ok _ =>
      match coeff env narg arg s0 with
      | Error msg => Error msg
      | Fault f => Fault f
      | Ok (s, ld) => Ok (constructor_flags, s, ld)
      end
  end.

Definition init_one (s : setup) (ld : loaded) (i j : nat) : outcome num :=
  if (setflag s i j =? 0)%Z
  then Error "All pair coeffs are not set"
  else Ok (cutoff ld).

(** [nmax * sizeof(double)], in bytes. *)
Definition memory_usage (c : @compute num) : nat := nmax c * 8.

(** *** The second walk over the neighbors, with its counter

    The loop of [accumulate_atom] before its counter is dropped. *)
Definition second_walk
  (B2_env_dervs_of : @host num -> @compute num -> nat -> nat -> array2 num)
  (h : host) (c : compute) (i : nat) (d : array2 num) : nat * array2 num :=
  let B2_env_dervs := B2_env_dervs_of h c i (count_inner h c i) in
  for_ (numneigh h i) 0
    (fun jj (st : nat * array2 num) =>
       let (n_count, d) := st in
       let j := firstneigh h i jj in
       if inside_cutoff c (x h i 0 - x h j 0)%num
            (x h i 1 - x h j 1)%num (x h i 2 - x h j 2)%num
       then (S n_count, scatter_row c B2_env_dervs i j n_count d)
       else (n_count, d))
    (0, d).

(** The line buffer after fgets and strtok have gone through [lines]. *)
Definition buffer_after (lines : list string) (line : option string)
  : option string :=
  fold_left (fun _ l => Some (after_strtok l false)) lines line.

(** The running sum over the upper triangle with the raw file values in
    place of the matrix entries, and no weights. *)
Definition quad_raw (beta : list num) (D k : nat) (d : array2 num) (r : nat)
  : num :=
  fold_left
    (fun v p =>
       (v + d r (fst p) * nth (beta_index D k (fst p) (snd p)) beta dzero
            * d r (snd p))%num)
    (upper_pairs D) dzero.

End Setup.

(** ** More sample inputs *)

Module MoreSamples.
Import ExactZ.

Definition files (name : string) : option potential_file :=
  if String.eqb name "flare.std" then Some Samples.three_descriptors
  else None.

(** Two atom types; fresh memory holds zeros. *)
Definition two_types : environment :=
  {| atom_ntypes := 2;
     fresh_setflag := fun _ _ => 0%Z;
     fresh_cutsq := fun _ _ => 0%Z;
     open_potential := files |}.

Definition nothing_allocated : setup :=
  {| allocated := false; setflag := fun _ _ => 0%Z;
     cutsq := fun _ _ => 0%Z |}.

Definition star_star_file : nat -> string :=
  fun k => match k with
           | 0 | 1 => "*"%string
           | _ => "flare.std"%string
           end.

(** Two owned atoms too far apart for the cutoff of 5. *)
Definition far_apart : host :=
  {| atom_nmax := 2; nlocal := 2; nghost := 0; newton := true;
     x := fun a comp => if (a =? 1) && (comp =? 0) then 6%Z else 0%Z;
     type := fun _ => 1;
     inum := 2; ilist := fun ii => ii;
     numneigh := fun _ => 1;
     firstneigh := fun i _ => 1 - i;
     fresh_stds := Samples.unassigned;
     fresh_desc_derv := Samples.unassigned |}.

End MoreSamples.

(** * Properties *)

Import ExactZ.

(** ** Loops *)

Lemma for_snoc (S : Type) (n lo : nat) (body : nat -> S -> S) (s : S) :
  for_ (Datatypes.S n) lo body s = body (lo + n) (for_ n lo body s).
Proof.
  revert lo s.
  induction n as [|n IH]; intros lo s.
  - simpl. now rewrite Nat.add_0_r.
  - change (for_ (Datatypes.S (Datatypes.S n)) lo body s)
      with (for_ (Datatypes.S n) (Datatypes.S lo) body (body lo s)).
    rewrite IH. simpl. now rewrite Nat.add_succ_r.
Qed.

(** A property kept by every pass of the body is kept by the loop. *)
Lemma for_invariant (S : Type) (P : S -> Prop) (n lo : nat)
  (body : nat -> S -> S) (s : S) :
  P s ->
  (forall i s', lo <= i < lo + n -> P s' -> P (body i s')) ->
  P (for_ n lo body s).
Proof.
  revert lo s.
  induction n as [|n IH]; intros lo s Hs Hbody; simpl; [exact Hs|].
  apply IH.
  - apply Hbody; [lia | exact Hs].
  - intros i s' Hi. apply Hbody. lia.
Qed.

Lemma aset2_other (num : Type) (a : array2 num) (r c r' c' : nat) (v : num) :
  r' <> r \/ c' <> c -> aset2 a r c v r' c' = a r' c'.
Proof.
  intros Hne. unfold aset2.
  destruct (Nat.eqb_spec r' r), (Nat.eqb_spec c' c); simpl; try reflexivity.
  destruct Hne; contradiction.
Qed.

Lemma row_inj (i i' comp comp' : nat) :
  comp < 3 -> comp' < 3 -> row i comp = row i' comp' -> i = i' /\ comp = comp'.
Proof. unfold row. lia. Qed.

(** ** The packed upper triangle *)

Lemma row_start_full (D i : nat) :
  i <= D -> 2 * row_start D i + i * i = 2 * i * D + i.
Proof.
  induction i as [|i IH]; intros Hi; simpl; [reflexivity|].
  specialize (IH ltac:(lia)). nia.
Qed.

(** A species takes [D * (D + 1) / 2] values. *)
Lemma row_start_triangle (D : nat) : 2 * row_start D D = D * (D + 1).
Proof. pose proof (row_start_full D D) as Hf. nia. Qed.

Lemma row_start_mono (D i i' : nat) :
  i <= i' -> row_start D i <= row_start D i'.
Proof. induction 1; simpl; lia. Qed.

(** Pairs of one species stay inside that species' block. *)
Lemma pair_in_block (D i j : nat) :
  i <= j -> j < D -> row_start D i + (j - i) < row_start D D.
Proof.
  intros Hij HjD.
  assert (Hs : row_start D (S i) <= row_start D D)
    by (apply row_start_mono; lia).
  simpl in Hs. lia.
Qed.

Section LoaderFacts.
Context {num : Type} `{DoubleOps num}.

Lemma fill_row (beta : list num) (i len c0 : nat) (M : array2 num) :
  let r := for_ len i (fun j => fill_entry beta i j) (c0, M) in
  fst r = c0 + len /\
  forall a b,
    snd r a b =
    if (Nat.min a b =? i) && (Nat.max a b <? i + len)
    then stored beta (c0 + (Nat.max a b - i)) a b
    else M a b.
Proof.
  induction len as [|len IH]; cbv zeta in *.
  - simpl. split; [lia|]. intros a b.
    destruct (Nat.eqb_spec (Nat.min a b) i),
      (Nat.ltb_spec (Nat.max a b) (i + 0)); simpl; try reflexivity; lia.
  - rewrite for_snoc.
    destruct (for_ len i (fun j => fill_entry beta i j) (c0, M))
      as [c M1] eqn:Hloop.
    simpl in IH. destruct IH as [Hc HM]. subst c.
    unfold fill_entry. simpl. split; [lia|]. intros a b.
    unfold stored.
    destruct (Nat.eqb_spec i (i + len)) as [Hlen|Hlen]; simpl.
    + assert (len = 0) by lia. subst len.
      unfold aset2. rewrite HM.
      destruct (Nat.eqb_spec a i), (Nat.eqb_spec b (i + 0)),
        (Nat.eqb_spec (Nat.min a b) i), (Nat.ltb_spec (Nat.max a b) (i + 0)),
        (Nat.ltb_spec (Nat.max a b) (i + 1)), (Nat.eqb_spec a b);
        simpl; try lia; try reflexivity.
      f_equal. lia.
    + unfold aset2. rewrite HM. unfold stored.
      destruct (Nat.eqb_spec a i), (Nat.eqb_spec b (i + len)),
        (Nat.eqb_spec a (i + len)), (Nat.eqb_spec b i),
        (Nat.eqb_spec (Nat.min a b) i),
        (Nat.ltb_spec (Nat.max a b) (i + len)),
        (Nat.ltb_spec (Nat.max a b) (i + S len)), (Nat.eqb_spec a b);
        simpl; try lia; try reflexivity;
        repeat f_equal; lia.
Qed.

Lemma fill_rows (beta : list num) (D r c0 : nat) (M : array2 num) :
  r <= D ->
  let res := for_ r 0
               (fun i => for_ (D - i) i (fun j => fill_entry beta i j))
               (c0, M) in
  fst res = c0 + row_start D r /\
  forall a b,
    snd res a b =
    if (Nat.min a b <? r) && (Nat.max a b <? D)
    then stored beta
           (c0 + row_start D (Nat.min a b) + (Nat.max a b - Nat.min a b)) a b
    else M a b.
Proof.
  induction r as [|r IH]; intros Hr; cbv zeta in *.
  - simpl. split; [lia|]. intros a b. reflexivity.
  - rewrite for_snoc. simpl Nat.add.
    destruct (for_ r 0
                (fun i => for_ (D - i) i (fun j => fill_entry beta i j))
                (c0, M)) as [c M1] eqn:Hloop.
    destruct (IH ltac:(lia)) as [Hc HM]. simpl in Hc, HM. subst c.
    destruct (fill_row beta r (D - r) (c0 + row_start D r) M1) as [Hc' HM'].
    split; [rewrite Hc'; simpl; lia|].
    intros a b. rewrite HM', HM.
    replace (r + (D - r)) with D by lia.
    destruct (Nat.eqb_spec (Nat.min a b) r) as [Hmin|Hmin],
      (Nat.ltb_spec (Nat.max a b) D),
      (Nat.ltb_spec (Nat.min a b) r),
      (Nat.ltb_spec (Nat.min a b) (S r));
      simpl; try lia; try reflexivity.
    now rewrite Hmin.
Qed.

Lemma fill_beta_matrices_spec (beta : list num) (D n : nat) :
  let res := fill_beta_matrices beta n D in
  fst res = n * row_start D D /\
  List.length (snd res) = n /\
  forall k a b,
    k < n ->
    nth k (snd res) Zero a b =
    if (Nat.min a b <? D) && (Nat.max a b <? D)
    then stored beta (beta_index D k (Nat.min a b) (Nat.max a b)) a b
    else dzero.
Proof.
  unfold fill_beta_matrices.
  induction n as [|n IH]; cbv zeta in *.
  - simpl. repeat split; intros; lia.
  - rewrite for_snoc.
    match goal with
    | |- context [for_ n 0 ?body ?init] =>
        destruct (for_ n 0 body init) as [c Ms] eqn:Hloop
    end.
    simpl in IH. destruct IH as (Hc & Hlen & HMs). subst c.
    unfold fill_matrix.
    destruct (fill_rows beta D D (n * row_start D D) Zero (le_n D))
      as [Hc' HM'].
    match goal with
    | |- context [for_ D 0 ?body ?init] =>
        destruct (for_ D 0 body init) as [c' M'] eqn:Hfill
    end.
    simpl in Hc', HM'. simpl. repeat split.
    + lia.
    + rewrite length_app. simpl. lia.
    + intros k a b Hk.
      destruct (Nat.eq_dec k n) as [->|Hkn].
      * rewrite app_nth2 by lia.
        rewrite Hlen, Nat.sub_diag. simpl. rewrite HM'.
        unfold beta_index, Zero. reflexivity.
      * rewrite app_nth1 by lia. apply HMs. lia.
Qed.

(** *** grab *)

Lemma grab_body_counts (st st' : grab_state) :
  grab_body st = inl st' ->
  List.length (g_list st) = g_i st ->
  List.length (g_list st') = g_i st' /\ g_i st < g_i st'.
Proof.
  unfold grab_body. intros Hbody Hlen.
  destruct (match g_fptr st with
            | [] => (g_line st, [])
            | l :: r => (Some l, r)
            end) as [[l|] rest]; [|discriminate].
  destruct (strtok_all l) as [|ptr more]; [discriminate|].
  injection Hbody as <-. simpl.
  rewrite length_app. simpl. rewrite length_map. lia.
Qed.

(** The loop leaves through its guard: with [n] passes of fuel the result
    has [i >= n], and the stored values are exactly list[0..i). *)
Lemma grab_loop_exit (fuel : nat) (n : Z) (st st' : grab_state) :
  (n <= Z.of_nat (fuel + g_i st))%Z ->
  List.length (g_list st) = g_i st ->
  grab_loop fuel n st = Ok st' ->
  (n <= Z.of_nat (g_i st'))%Z /\ List.length (g_list st') = g_i st'.
Proof.
  revert st.
  induction fuel as [|fuel IH]; intros st Hfuel Hlen Hrun; simpl in Hrun.
  - injection Hrun as <-. split; [exact Hfuel | exact Hlen].
  - destruct (Z.ltb_spec (Z.of_nat (g_i st)) n) as [Hlt|Hge].
    + destruct (grab_body st) as [st1|f] eqn:Hbody; [|discriminate].
      destruct (grab_body_counts st st1 Hbody Hlen) as [Hlen1 Hgrow].
      apply (IH st1); [lia | exact Hlen1 | exact Hrun].
    + injection Hrun as <-. split; [lia | exact Hlen].
Qed.

Lemma grab_exit (fptr : list string) (n : Z) (st : grab_state) :
  grab fptr n = Ok st ->
  (n <= Z.of_nat (g_i st))%Z /\ List.length (g_list st) = g_i st.
Proof.
  unfold grab. intros Hrun.
  eapply grab_loop_exit; [| |exact Hrun]; [simpl; lia | reflexivity].
Qed.

(** Lines without a blank one, holding exactly the values still needed:
    the loop reads them all and stops. *)
Lemma grab_loop_exact (lines rest : list string) :
  forall (fuel : nat) (n : Z) (st : grab_state),
    g_fptr st = lines ++ rest ->
    Forall (fun l => strtok_all l <> []) lines ->
    Z.of_nat (g_i st + List.length (tokens_of lines)) = n ->
    List.length lines <= fuel ->
    exists st',
      grab_loop fuel n st = Ok st' /\
      g_fptr st' = rest /\
      g_i st' = g_i st + List.length (tokens_of lines) /\
      g_list st' = g_list st ++ map atof (tokens_of lines).
Proof.
  induction lines as [|l lines IH]; intros fuel n st Hfile Hblank Htotal Hfuel.
  - exists st. simpl in *. rewrite Nat.add_0_r in *. rewrite app_nil_r.
    repeat split; try assumption.
    destruct fuel; simpl; [reflexivity|].
    destruct (Z.ltb_spec (Z.of_nat (g_i st)) n); [lia | reflexivity].
  - destruct fuel as [|fuel]; [simpl in Hfuel; lia|].
    inversion Hblank as [|? ? Hl Hrest]; subst.
    unfold tokens_of in *. simpl in *.
    destruct (strtok_all l) as [|ptr more] eqn:Htok; [contradiction|].
    rewrite length_app in *. simpl in *.
    destruct (Z.ltb_spec (Z.of_nat (g_i st))
                (Z.of_nat (g_i st + S (List.length more
                   + List.length (List.concat (map strtok_all lines))))));
      [|lia].
    unfold grab_body. rewrite Hfile, Htok.
    match goal with
    | |- context [grab_loop fuel ?n ?st1] =>
        destruct (IH fuel n st1) as (st' & Hrun & Hf & Hi & Hl');
        [reflexivity | assumption | simpl; lia | lia |]
    end.
    exists st'. simpl in *. repeat split; try assumption.
    + lia.
    + rewrite Hl', map_app, <- app_assoc. reflexivity.
Qed.

End LoaderFacts.

(** ** read_file *)

Lemma wrap_in_range (z : Z) : Int.in_range z -> Int.wrap z = z.
Proof.
  unfold Int.in_range, Int.wrap. intros Hz.
  rewrite Z.mod_small; lia.
Qed.

Section ReadFileFacts.
Context {num : Type} `{DoubleOps num}.

Lemma nonblank_lines_tokens (lines : list string) :
  Forall (fun l => strtok_all l <> []) lines ->
  List.length lines <= List.length (tokens_of lines).
Proof.
  unfold tokens_of.
  induction 1 as [|l lines Hl _ IH]; simpl; [lia|].
  rewrite length_app.
  destruct (strtok_all l); [contradiction | simpl; lia].
Qed.

(** What a successful load has established. *)
Lemma read_file_ok (filename : string) (pf : potential_file) (ld : loaded) :
  read_file filename (Some pf) = Ok ld ->
  beta_check pf = f_beta_size pf /\
  n_species ld = f_n_species pf /\
  beta_size ld = f_beta_size pf /\
  n_descriptors ld = descriptor_count pf /\
  basis_function ld =
    (if String.eqb (f_radial_string pf) "chebyshev"
     then Some chebyshev else None) /\
  List.length (beta ld)
    = Z.to_nat (Int.mul (f_beta_size pf) (f_n_species pf)) /\
  (exists st,
      grab (f_tail pf) (Int.mul (f_beta_size pf) (f_n_species pf)) = Ok st /\
      beta ld = g_list st) /\
  beta_matrices ld =
    snd (fill_beta_matrices (beta ld) (Z.to_nat (n_species ld))
           (Z.to_nat (n_descriptors ld))).
Proof.
  unfold read_file. intros Hread.
  destruct (Z.eqb_spec (beta_check pf) (f_beta_size pf)) as [Hcheck|];
    [simpl in Hread | discriminate].
  destruct (grab (f_tail pf) (Int.mul (f_beta_size pf) (f_n_species pf)))
    as [st|msg|f] eqn:Hgrab; try discriminate.
  destruct (Nat.ltb_spec
              (Z.to_nat (Int.mul (f_beta_size pf) (f_n_species pf)))
              (g_i st)) as [|Hfit]; [discriminate|].
  injection Hread as <-. simpl.
  destruct (grab_exit _ _ _ Hgrab) as [Hn Hlen].
  repeat split; try reflexivity; try assumption.
  - destruct (String.eqb (f_radial_string pf) "chebyshev"); reflexivity.
  - lia.
  - exists st. split; reflexivity.
Qed.

(** A matching size and a well-formed tail are all a load needs. *)
Lemma read_file_accepts (filename : string) (pf : potential_file) :
  beta_check pf = f_beta_size pf ->
  well_formed_tail (f_tail pf) (Int.mul (f_beta_size pf) (f_n_species pf)) ->
  exists ld, read_file filename (Some pf) = Ok ld.
Proof.
  intros Hcheck (lines & rest & Htail & Hblank & Htotal).
  unfold read_file. rewrite Hcheck, Z.eqb_refl. simpl.
  unfold grab.
  destruct (grab_loop_exact lines rest
              (Z.to_nat (Int.mul (f_beta_size pf) (f_n_species pf)))
              (Int.mul (f_beta_size pf) (f_n_species pf))
              {| g_fptr := f_tail pf; g_line := None; g_i := 0;
                 g_list := [] |})
    as (st & Hrun & _ & Hi & _).
  - exact Htail.
  - exact Hblank.
  - exact Htotal.
  - pose proof (nonblank_lines_tokens lines Hblank). lia.
  - rewrite Hrun. simpl in Hi.
    destruct (Nat.ltb_spec
                (Z.to_nat (Int.mul (f_beta_size pf) (f_n_species pf)))
                (g_i st)); [lia|].
    eexists. reflexivity.
Qed.

(** Without integer overflow the size check says that a species takes
    [row_start D D] values, and the beta array holds them all. *)
Lemma loaded_beta_length (filename : string) (pf : potential_file)
  (ld : loaded) :
  read_file filename (Some pf) = Ok ld ->
  (0 < n_descriptors ld)%Z ->
  (0 <= n_species ld)%Z ->
  Int.in_range (n_descriptors ld * (n_descriptors ld + 1)) ->
  Int.in_range (beta_size ld * n_species ld) ->
  List.length (beta ld)
  = Z.to_nat (n_species ld)
    * row_start (Z.to_nat (n_descriptors ld)) (Z.to_nat (n_descriptors ld)).
Proof.
  intros Hread HD Hk HDD Hn.
  destruct (read_file_ok _ _ _ Hread)
    as (Hcheck & Hsp & Hbs & Hnd & _ & Hlen & _ & _).
  rewrite Hlen. unfold Int.mul. rewrite <- Hsp, <- Hbs.
  rewrite (wrap_in_range _ Hn).
  rewrite <- Hbs in Hcheck. rewrite <- Hcheck.
  unfold beta_check, Int.div, Int.mul, Int.add. rewrite <- Hnd.
  set (D := n_descriptors ld) in *.
  assert (HD1 : Int.in_range (D + 1)) by (unfold Int.in_range in *; nia).
  rewrite (wrap_in_range _ HD1), (wrap_in_range _ HDD).
  pose proof (row_start_triangle (Z.to_nat D)) as Htri.
  assert (Hq : (D * (D + 1) ÷ 2)%Z
               = Z.of_nat (row_start (Z.to_nat D) (Z.to_nat D))).
  { rewrite Z.quot_div_nonneg by lia.
    symmetry. apply Z.div_unique with (r := 0%Z); [lia|]. nia. }
  rewrite Hq.
  rewrite wrap_in_range by (unfold Int.in_range in *; nia).
  nia.
Qed.

(** Every entry of a loaded matrix, in closed form. *)
Lemma loaded_matrix_entry (filename : string) (pf : potential_file)
  (ld : loaded) (k a b : nat) :
  read_file filename (Some pf) = Ok ld ->
  k < Z.to_nat (n_species ld) ->
  let D := Z.to_nat (n_descriptors ld) in
  nth k (beta_matrices ld) Zero a b =
  if (Nat.min a b <? D) && (Nat.max a b <? D)
  then stored (beta ld) (beta_index D k (Nat.min a b) (Nat.max a b)) a b
  else dzero.
Proof.
  intros Hread Hk D.
  destruct (read_file_ok _ _ _ Hread) as (_ & _ & _ & _ & _ & _ & _ & Hmat).
  destruct (fill_beta_matrices_spec (beta ld) D (Z.to_nat (n_species ld)))
    as (_ & _ & Hfill).
  rewrite Hmat. apply Hfill. exact Hk.
Qed.

Lemma loaded_matrix_symmetric (filename : string) (pf : potential_file)
  (ld : loaded) (k a b : nat) :
  read_file filename (Some pf) = Ok ld ->
  k < Z.to_nat (n_species ld) ->
  nth k (beta_matrices ld) Zero a b = nth k (beta_matrices ld) Zero b a.
Proof.
  intros Hread Hk.
  rewrite !(loaded_matrix_entry filename pf ld k) by assumption.
  rewrite (Nat.min_comm b a), (Nat.max_comm b a).
  unfold stored. rewrite (Nat.eqb_sym b a). reflexivity.
Qed.

End ReadFileFacts.

(** ** Reconstruction of the symmetric matrices *)

(** C1. After a successful load, for every species [k] and every pair
    [(i, j)], [i <= j], consumed in upper-triangular order, the matrix entry
    on the diagonal is the raw value read from the file, and off the
    diagonal both [(i, j)] and [(j, i)] hold half the raw value; hence the
    matrix is symmetric.  The raw value of pair [(i, j)] of species [k] is
    beta[beta_index D k i j], which lies inside the beta array whenever the
    header arithmetic does not overflow. *)
Theorem read_file_beta_matrices_halved_symmetric
  (num : Type) (ops : DoubleOps num)
  (filename : string) (pf : potential_file) (ld : loaded) :
  read_file filename (Some pf) = Ok ld ->
  forall k, k < Z.to_nat (n_species ld) ->
    let D := Z.to_nat (n_descriptors ld) in
    let Sigma := nth k (beta_matrices ld) Zero in
    (forall i j, i <= j -> j < D ->
       let raw := nth (beta_index D k i j) (beta ld) dzero in
       (i = j -> Sigma i j = raw) /\
       (i <> j -> Sigma i j = ddiv2 raw /\ Sigma j i = ddiv2 raw)) /\
    (forall i j, Sigma i j = Sigma j i) /\
    (Int.in_range (n_descriptors ld * (n_descriptors ld + 1)) ->
     Int.in_range (beta_size ld * n_species ld) ->
     forall i j, i <= j -> j < D ->
       beta_index D k i j < List.length (beta ld)).
Proof.
  intros Hread k Hk D Sigma.
  assert (HSigma : forall a b,
             Sigma a b =
             if (Nat.min a b <? D) && (Nat.max a b <? D)
             then stored (beta ld) (beta_index D k (Nat.min a b) (Nat.max a b))
                    a b
             else dzero).
  { intros a b. exact (loaded_matrix_entry filename pf ld k a b Hread Hk). }
  split; [|split].
  - intros i j Hij Hj raw. subst raw.
    split.
    + intros ->. rewrite HSigma, Nat.min_id, Nat.max_id.
      destruct (Nat.ltb_spec j D); [|lia]. simpl.
      unfold stored. now rewrite Nat.eqb_refl.
    + intros Hne. rewrite !HSigma.
      rewrite (Nat.min_comm j i), (Nat.max_comm j i).
      rewrite Nat.min_l, Nat.max_r by lia.
      destruct (Nat.ltb_spec i D), (Nat.ltb_spec j D); try lia. simpl.
      unfold stored.
      destruct (Nat.eqb_spec i j), (Nat.eqb_spec j i); try lia.
      split; reflexivity.
  - intros i j. exact (loaded_matrix_symmetric filename pf ld k i j Hread Hk).
  - intros HDD Hn i j Hij Hj.
    rewrite (loaded_beta_length filename pf ld Hread); try assumption; try lia.
    unfold beta_index.
    pose proof (pair_in_block D i j Hij Hj) as Hblock.
    fold D. nia.
Qed.

Lemma read_file_beta_matrices_halved_symmetric_witness :
  exists ld,
    read_file "flare.std" (Some Samples.three_descriptors) = Ok ld /\
    nth 0 (beta_matrices ld) Zero 0 2 = 15%Z /\
    nth 0 (beta_matrices ld) Zero 2 0 = 15%Z /\
    nth 0 (beta_matrices ld) Zero 1 1 = 40%Z.
Proof.
  eexists. split; [vm_compute; reflexivity|].
  match goal with
  | |- context [beta_matrices ?l] =>
      destruct (read_file_beta_matrices_halved_symmetric Z ExactZ.ops
                  "flare.std" Samples.three_descriptors l eq_refl 0
                  ltac:(vm_compute; lia))
        as (Hpairs & _ & _)
  end.
  destruct (Hpairs 0 2 ltac:(lia) ltac:(vm_compute; lia)) as [_ Hoff].
  destruct (Hoff ltac:(lia)) as [H02 H20].
  destruct (Hpairs 1 1 ltac:(lia) ltac:(vm_compute; lia)) as [Hdiag _].
  split; [|split].
  - rewrite H02. reflexivity.
  - rewrite H20. reflexivity.
  - rewrite (Hdiag eq_refl). reflexivity.
Defined.

(** ** The size check *)

Lemma quot_in_range (z : Z) : Int.in_range z -> Int.in_range (z ÷ 2).
Proof.
  unfold Int.in_range. intros Hz.
  destruct (Z.le_gt_cases 0 z) as [Hpos|Hneg].
  - pose proof (Z.quot_pos z 2 Hpos ltac:(lia)).
    pose proof (Z.quot_le_upper_bound z 2 z ltac:(lia) ltac:(lia)). lia.
  - rewrite <- (Z.opp_involutive z), Z.quot_opp_l by lia.
    pose proof (Z.quot_pos (- z) 2 ltac:(lia) ltac:(lia)).
    pose proof (Z.quot_le_upper_bound (- z) 2 (- z) ltac:(lia) ltac:(lia)).
    lia.
Qed.

Section SizeCheck.
Context {num : Type} `{DoubleOps num}.

Lemma grab_loop_no_error (fuel : nat) (n : Z) (st : grab_state) (msg : string) :
  grab_loop fuel n st <> Error msg.
Proof.
  revert st.
  induction fuel as [|fuel IH]; intros st; simpl; [discriminate|].
  destruct (Z.of_nat (g_i st) <? n)%Z; [|discriminate].
  destruct (grab_body st); [apply IH | discriminate].
Qed.

Lemma header_arith_exact (pf : @potential_file num) :
  header_in_range pf ->
  let R := (f_n_max pf * f_n_species pf)%Z in
  let D := ((R * (R + 1) ÷ 2) * (f_l_max pf + 1))%Z in
  descriptor_count pf = D /\ beta_check pf = (D * (D + 1) ÷ 2)%Z.
Proof.
  intros (HR & HR1 & HRR & HL & HD & HD1 & HDD) R D.
  assert (Hcount : descriptor_count pf = D).
  { unfold descriptor_count, Int.mul, Int.add, Int.div. subst R D.
    rewrite (wrap_in_range _ HR), (wrap_in_range _ HR1).
    rewrite (wrap_in_range _ HRR).
    rewrite (wrap_in_range _ (quot_in_range _ HRR)).
    rewrite (wrap_in_range _ HL). apply wrap_in_range. exact HD. }
  split; [exact Hcount|].
  unfold beta_check. rewrite Hcount. subst R D.
  unfold Int.mul, Int.add, Int.div.
  rewrite (wrap_in_range _ HD1), (wrap_in_range _ HDD).
  apply wrap_in_range, quot_in_range. exact HDD.
Qed.

End SizeCheck.

(** C3. The descriptor count is [(R * (R + 1) / 2) * (l_max + 1)] with
    [R = n_max * n_species] in [int] arithmetic (and in plain integer
    arithmetic when nothing overflows).  When [D * (D + 1) / 2] differs
    from the announced beta_size (as [int]s, hence as integers when nothing
    overflows) the load ends in the configuration error, an outcome that
    carries no loaded state; when they agree the load never ends in a
    configuration error.  A header [1 1 0 1] followed by one value
    is accepted with [D = 1]; the header [1 1 0 2] is rejected. *)
Theorem read_file_beta_size_check
  (num : Type) (ops : DoubleOps num) (filename : string) (pf : potential_file) :
  (descriptor_count pf
   = let n_radial := Int.mul (f_n_max pf) (f_n_species pf) in
     Int.mul (Int.div (Int.mul n_radial (Int.add n_radial 1)) 2)
       (Int.add (f_l_max pf) 1)) /\
  (header_in_range pf ->
   let R := (f_n_max pf * f_n_species pf)%Z in
   let D := ((R * (R + 1) ÷ 2) * (f_l_max pf + 1))%Z in
   descriptor_count pf = D /\ beta_check pf = (D * (D + 1) ÷ 2)%Z) /\
  (beta_check pf <> f_beta_size pf ->
   read_file filename (Some pf)
   = Error "Beta size doesn't match the number of descriptors.") /\
  (header_in_range pf ->
   let R := (f_n_max pf * f_n_species pf)%Z in
   let D := ((R * (R + 1) ÷ 2) * (f_l_max pf + 1))%Z in
   (D * (D + 1) ÷ 2)%Z <> f_beta_size pf ->
   read_file filename (Some pf)
   = Error "Beta size doesn't match the number of descriptors.") /\
  (beta_check pf = f_beta_size pf ->
   forall msg, read_file filename (Some pf) <> Error msg) /\
  (f_n_species pf = 1%Z -> f_n_max pf = 1%Z -> f_l_max pf = 0%Z ->
   (f_beta_size pf = 1%Z -> well_formed_tail (f_tail pf) 1 ->
    exists ld, read_file filename (Some pf) = Ok ld /\
               n_descriptors ld = 1%Z) /\
   (f_beta_size pf = 2%Z ->
    read_file filename (Some pf)
    = Error "Beta size doesn't match the number of descriptors.")).
Proof.
  assert (Hreject : beta_check pf <> f_beta_size pf ->
                    read_file filename (Some pf)
                    = Error "Beta size doesn't match the number of descriptors.").
  { intros Hne. unfold read_file.
    destruct (Z.eqb_spec (beta_check pf) (f_beta_size pf));
      [contradiction | reflexivity]. }
  split; [reflexivity|].
  split; [apply header_arith_exact|].
  split; [exact Hreject|].
  split.
  { intros Hrange R D Hne. apply Hreject.
    destruct (header_arith_exact pf Hrange) as [_ Hcheck].
    rewrite Hcheck. exact Hne. }
  split.
  - intros Hcheck msg. unfold read_file.
    rewrite Hcheck, Z.eqb_refl. simpl.
    destruct (grab (f_tail pf) (Int.mul (f_beta_size pf) (f_n_species pf)))
      as [st|msg'|f] eqn:Hgrab.
    + destruct (Z.to_nat (Int.mul (f_beta_size pf) (f_n_species pf)) <? g_i st);
        discriminate.
    + exfalso. exact (grab_loop_no_error _ _ _ _ Hgrab).
    + discriminate.
  - intros Hsp Hmax Hl.
    assert (Hcount : descriptor_count pf = 1%Z)
      by (unfold descriptor_count; rewrite Hsp, Hmax, Hl; reflexivity).
    assert (Hcheck : beta_check pf = 1%Z)
      by (unfold beta_check; rewrite Hcount; reflexivity).
    split.
    + intros Hbs Htail.
      destruct (read_file_accepts filename pf) as [ld Hld].
      * rewrite Hcheck, Hbs. reflexivity.
      * rewrite Hbs, Hsp. exact Htail.
      * exists ld. split; [exact Hld|].
        destruct (read_file_ok _ _ _ Hld) as (_ & _ & _ & Hnd & _).
        rewrite Hnd. exact Hcount.
    + intros Hbs. apply Hreject. rewrite Hcheck, Hbs. discriminate.
Qed.

Lemma read_file_beta_size_check_witness :
  (exists ld, read_file "flare.std" (Some Samples.one_descriptor) = Ok ld /\
              n_descriptors ld = 1%Z) /\
  read_file "flare.std" (Some Samples.one_descriptor_two_values)
  = Error "Beta size doesn't match the number of descriptors.".
Proof.
  split.
  - destruct (read_file_beta_size_check Z ExactZ.ops "flare.std"
                Samples.one_descriptor) as (_ & _ & _ & _ & _ & Hcase).
    destruct (Hcase eq_refl eq_refl eq_refl) as [Haccept _].
    apply Haccept; [reflexivity|].
    exists ["7"%string], []. repeat split.
    constructor; [vm_compute; discriminate | constructor].
  - destruct (read_file_beta_size_check Z ExactZ.ops "flare.std"
                Samples.one_descriptor_two_values) as (_ & _ & Hreject & _).
    apply Hreject. vm_compute. discriminate.
Defined.

(** ** Unknown basis names *)

Section BasisFacts.
Context {num : Type} `{DoubleOps num}.

(** The radial hyperparameters a successful load leaves behind. *)
Lemma read_file_radial_hyps (filename : string) (pf : potential_file)
  (ld : loaded) :
  read_file filename (Some pf) = Ok ld ->
  radial_hyps ld
  = if String.eqb (f_radial_string pf) "chebyshev"
    then [dzero; f_cutoff pf] else [].
Proof.
  unfold read_file. intros Hread.
  destruct (Z.eqb_spec (beta_check pf) (f_beta_size pf)) as [Hcheck|];
    [simpl in Hread | discriminate].
  destruct (grab (f_tail pf) (Int.mul (f_beta_size pf) (f_n_species pf)))
    as [st|msg|f]; try discriminate.
  destruct (Z.to_nat (Int.mul (f_beta_size pf) (f_n_species pf)) <? g_i st);
    [discriminate|].
  injection Hread as <-. cbn [radial_hyps].
  destruct (String.eqb (f_radial_string pf) "chebyshev"); reflexivity.
Qed.

End BasisFacts.

(** C6, as the source behaves: a radial-basis token other than
    [chebyshev] does not make the load fail.  With a matching beta size and
    a well-formed tail the load succeeds, and every successful load of such
    a file leaves the basis function unassigned and its hyperparameters
    empty. *)
Theorem read_file_unknown_basis_left_unset
  (num : Type) (ops : DoubleOps num) (filename : string) (pf : potential_file) :
  f_radial_string pf <> "chebyshev"%string ->
  (beta_check pf = f_beta_size pf ->
   well_formed_tail (f_tail pf) (Int.mul (f_beta_size pf) (f_n_species pf)) ->
   exists ld, read_file filename (Some pf) = Ok ld) /\
  (forall ld, read_file filename (Some pf) = Ok ld ->
              basis_function ld = None /\ radial_hyps ld = []).
Proof.
  intros Hunknown. split.
  - apply read_file_accepts.
  - intros ld Hld.
    destruct (read_file_ok _ _ _ Hld) as (_ & _ & _ & _ & Hbasis & _).
    rewrite Hbasis, (read_file_radial_hyps filename pf ld Hld).
    destruct (String.eqb_spec (f_radial_string pf) "chebyshev");
      [contradiction | split; reflexivity].
Qed.

Lemma read_file_unknown_basis_left_unset_witness :
  exists ld, read_file "flare.std" (Some Samples.unknown_basis) = Ok ld /\
             basis_function ld = None /\ radial_hyps ld = [].
Proof.
  destruct (read_file_unknown_basis_left_unset Z ExactZ.ops "flare.std"
              Samples.unknown_basis ltac:(vm_compute; discriminate))
    as [Haccept Hunset].
  destruct Haccept as [ld Hld].
  - reflexivity.
  - exists ["7"%string], []. repeat split.
    constructor; [vm_compute; discriminate | constructor].
  - exists ld. split; [exact Hld | exact (Hunset ld Hld)].
Defined.

(** The file [bessel / 1 1 0 1 / cosine / 4 / 7] names an unknown radial
    basis, yet its load does not end in an error. *)
Lemma read_file_unknown_basis_not_rejected :
  f_radial_string Samples.unknown_basis <> "chebyshev"%string /\
  (forall msg,
      read_file "flare.std" (Some Samples.unknown_basis) <> Error msg) /\
  (exists ld, read_file "flare.std" (Some Samples.unknown_basis) = Ok ld /\
              basis_function ld = None /\ radial_hyps ld = []).
Proof.
  split; [vm_compute; discriminate|].
  split; [intros msg; vm_compute; discriminate|].
  eexists. split; [vm_compute; reflexivity|].
  split; reflexivity.
Qed.

(** ** Reading the beta values *)

Section GrabFacts.
Context {num : Type} `{DoubleOps num}.

(** A tail whose leading lines hold exactly [n] values: grab stores these
    [n] values, in order, and nothing more. *)
Lemma grab_exact (tail : list string) (n : Z) (lines rest : list string) :
  tail = lines ++ rest ->
  Forall (fun l => strtok_all l <> []) lines ->
  Z.of_nat (List.length (tokens_of lines)) = n ->
  exists st,
    grab tail n = Ok st /\
    Z.of_nat (g_i st) = n /\
    g_list st = map atof (tokens_of lines) /\
    g_fptr st = rest.
Proof.
  intros Htail Hblank Htotal. unfold grab.
  destruct (grab_loop_exact lines rest (Z.to_nat n) n
              {| g_fptr := tail; g_line := None; g_i := 0; g_list := [] |})
    as (st & Hrun & Hrest & Hi & Hlist); try assumption.
  - pose proof (nonblank_lines_tokens lines Hblank). lia.
  - exists st. simpl in *. repeat split; try assumption. lia.
Qed.

End GrabFacts.

(** C8, at the input where the source departs from it.  Asked for one value
    from the line [7 8], grab stores both tokens: list[0] and list[1], the
    second one past the end of the one-element beta array; read_file with
    that tail runs into the overrun.  (On a tail whose lines hold exactly the
    announced number of values, [grab_exact] shows the reader stores exactly
    those.) *)
Theorem grab_stores_past_the_end :
  (exists st, grab ["7 8"%string] 1 = Ok st /\
              g_i st = 2 /\ g_list st = [7%Z; 8%Z]) /\
  read_file "flare.std" (Some Samples.one_descriptor_long_line)
  = Fault (HeapOverrun 1 2).
Proof.
  split.
  - eexists. split; [vm_compute; reflexivity|]. split; reflexivity.
  - vm_compute. reflexivity.
Qed.

(** ** Reverse communication *)

(** Decide every index comparison of the array updates in the goal. *)
Ltac array_cases :=
  unfold aset1, aset2;
  repeat match goal with
         | |- context [Nat.eqb ?a ?b] =>
             destruct (Nat.eqb_spec a b); simpl; try lia
         end.

Section ReverseCommFacts.
Context {num : Type} `{DoubleOps num}.

Lemma aset1_other (a : array1 num) (k k' : nat) (v : num) :
  k' <> k -> aset1 a k v k' = a k'.
Proof.
  intros Hne. unfold aset1.
  destruct (Nat.eqb_spec k' k); [contradiction | reflexivity].
Qed.

(** The pack loops started at buffer position [m0]. *)
Lemma pack_loop (c : compute) (n first m0 : nat) (buf : array1 num) :
  let res := for_ n first
               (fun i =>
                  for_ 3 0
                    (fun comp (st : nat * array1 num) =>
                       let (m, buf) := st in
                       (S m, aset1 buf m (stds c i comp))))
               (m0, buf) in
  fst res = m0 + 3 * n /\
  (forall k comp, k < n -> comp < 3 ->
                  snd res (m0 + 3 * k + comp) = stds c (first + k) comp) /\
  (forall p, p < m0 \/ m0 + 3 * n <= p -> snd res p = buf p).
Proof.
  induction n as [|n IH]; cbv zeta in *.
  - simpl. split; [lia|]. split; [intros; lia|]. intros. reflexivity.
  - rewrite for_snoc.
    match goal with
    | |- context [for_ n first ?body ?init] =>
        destruct (for_ n first body init) as [m B] eqn:Hloop
    end.
    simpl in IH. destruct IH as (Hm & Hin & Hout). subst m.
    simpl. repeat split.
    + lia.
    + intros k comp Hk Hcomp.
      destruct (Nat.eq_dec k n) as [->|Hkn].
      * destruct comp as [|[|[|comp]]]; try lia; array_cases; reflexivity.
      * rewrite !aset1_other by lia. apply Hin; lia.
    + intros p Hp. rewrite !aset1_other by lia. apply Hout. lia.
Qed.

(** The unpack loops: where they stand after [n] atoms. *)
Lemma unpack_loop (list : nat -> nat) (buf : array1 num) (s0 : array2 num)
  (n : nat) :
  let res := for_ n 0
               (fun i =>
                  let j := list i in
                  for_ 3 0
                    (fun comp (st : nat * array2 num) =>
                       let (m, s) := st in
                       (S m, aset2 s j comp (s j comp + buf m)%num)))
               (0, s0) in
  fst res = 3 * n /\
  forall j comp, comp < 3 ->
    snd res j comp = fold_left dadd (received n list buf j comp) (s0 j comp).
Proof.
  induction n as [|n IH]; cbv zeta in *.
  - simpl. split; [reflexivity|]. intros. reflexivity.
  - rewrite for_snoc.
    match goal with
    | |- context [for_ n 0 ?body ?init] =>
        destruct (for_ n 0 body init) as [m s] eqn:Hloop
    end.
    simpl in IH. destruct IH as (Hm & Hs). subst m.
    simpl. split; [lia|].
    intros j comp Hcomp.
    unfold received. rewrite seq_S, filter_app, map_app, fold_left_app.
    cbn [Nat.add seq]. fold (received n list buf j comp).
    rewrite <- (Hs j comp Hcomp).
    destruct (Nat.eqb_spec (list n) j) as [Hj|Hj]; simpl.
    + subst j.
      destruct comp as [|[|[|comp]]]; try lia; array_cases;
        do 2 f_equal; lia.
    + array_cases; reflexivity.
Qed.

End ReverseCommFacts.

Section UnpackDestinations.

Lemma filter_seq_none (list : nat -> nat) (j n : nat) :
  (forall i, i < n -> list i <> j) ->
  filter (fun i => list i =? j) (seq 0 n) = [].
Proof.
  induction n as [|n IH]; intros Hnone; [reflexivity|].
  rewrite seq_S, filter_app, IH by (intros; apply Hnone; lia).
  simpl. destruct (Nat.eqb_spec (list n) j); [|reflexivity].
  exfalso. apply (Hnone n); [lia | assumption].
Qed.

Lemma filter_seq_unique (list : nat -> nat) (i n : nat) :
  i < n ->
  (forall i', i' < n -> list i' = list i -> i' = i) ->
  filter (fun i' => list i' =? list i) (seq 0 n) = [i].
Proof.
  induction n as [|n IH]; intros Hi Huniq; [lia|].
  rewrite seq_S, filter_app. simpl.
  destruct (Nat.eq_dec i n) as [->|Hin].
  - rewrite filter_seq_none, Nat.eqb_refl; [reflexivity|].
    intros i' Hi' Heq. specialize (Huniq i' ltac:(lia) Heq). lia.
  - rewrite IH; [| lia | intros; apply Huniq; [lia | assumption]].
    destruct (Nat.eqb_spec (list n) (list i)) as [Heq|]; [|reflexivity].
    specialize (Huniq n ltac:(lia) Heq). lia.
Qed.

End UnpackDestinations.

(** C7. [pack_reverse_comm c n first buf] returns [3 * n] and leaves in
    [buf[3 k + comp]] the value [stds[first + k][comp]] for every atom
    [first + k] of the range and every component, in atom order, touching
    nothing at or beyond position [3 * n].  [unpack_reverse_comm] adds to
    every destination atom, component by component, the triples received
    for it, in buffer order: an atom listed once ends with its old value
    plus the received one, an atom not listed keeps its value. *)
Theorem reverse_comm_pack_unpack
  (num : Type) (ops : DoubleOps num) (c : @compute num) (n : nat) :
  (forall first (buf : array1 num),
      let res := pack_reverse_comm c n first buf in
      fst res = 3 * n /\
      (forall k comp, k < n -> comp < 3 ->
                      snd res (3 * k + comp) = stds c (first + k) comp) /\
      (forall p, 3 * n <= p -> snd res p = buf p)) /\
  (forall list (buf : array1 num),
      let c' := unpack_reverse_comm c n list buf in
      (forall j comp, comp < 3 ->
         stds c' j comp
         = fold_left dadd (received n list buf j comp) (stds c j comp)) /\
      (forall i comp, i < n -> comp < 3 ->
         (forall i', i' < n -> list i' = list i -> i' = i) ->
         stds c' (list i) comp
         = (stds c (list i) comp + buf (3 * i + comp)%nat)%num) /\
      (forall j comp, comp < 3 ->
         (forall i, i < n -> list i <> j) ->
         stds c' j comp = stds c j comp)).
Proof.
  split.
  - intros first buf res.
    destruct (pack_loop c n first 0 buf) as (Hm & Hin & Hout).
    fold (pack_reverse_comm c n first buf) in Hm, Hin, Hout.
    fold res in Hm, Hin, Hout.
    split; [exact Hm|]. split.
    + intros k comp Hk Hcomp. exact (Hin k comp Hk Hcomp).
    + intros p Hp. apply Hout. lia.
  - intros list buf c'.
    destruct (unpack_loop list buf (stds c) n) as [_ Hsum].
    assert (Hfold : forall j comp, comp < 3 ->
               stds c' j comp
               = fold_left dadd (received n list buf j comp) (stds c j comp)).
    { intros j comp Hcomp. exact (Hsum j comp Hcomp). }
    split; [exact Hfold|]. split.
    + intros i comp Hi Hcomp Huniq. rewrite Hfold by assumption.
      unfold received. rewrite (filter_seq_unique list i n Hi Huniq).
      reflexivity.
    + intros j comp Hcomp Hnone. rewrite Hfold by assumption.
      unfold received. rewrite (filter_seq_none list j n Hnone).
      reflexivity.
Qed.

Lemma reverse_comm_pack_unpack_witness :
  snd (pack_reverse_comm Samples.numbered_compute 2 1 (fun _ => 0%Z)) 4
  = 21%Z /\
  stds (unpack_reverse_comm Samples.numbered_compute 2
          (fun i => 3 - i) (fun m => Z.of_nat (100 * m))) 2 1 = 421%Z.
Proof.
  destruct (reverse_comm_pack_unpack Z ExactZ.ops Samples.numbered_compute 2)
    as [Hpack Hunpack].
  split.
  - destruct (Hpack 1 (fun _ => 0%Z)) as (_ & Hin & _).
    exact (Hin 1 1 ltac:(lia) ltac:(lia)).
  - destruct (Hunpack (fun i => 3 - i) (fun m => Z.of_nat (100 * m)))
      as (_ & Honce & _).
    exact (Honce 1 1 ltac:(lia) ltac:(lia) ltac:(intros; lia)).
Defined.

(** C10, at the call where the source departs from it.  The constructor
    declares one double per atom, and packing a single atom already stores
    three: more than [comm_reverse * n] for every [n >= 1]. *)
Theorem pack_exceeds_declared_width
  (num : Type) (ops : DoubleOps num) (c : @compute num) (first : nat)
  (buf : array1 num) :
  comm_reverse constructor_flags = 1 /\
  (forall n, fst (pack_reverse_comm c n first buf) = 3 * n) /\
  comm_reverse constructor_flags * 1 < fst (pack_reverse_comm c 1 first buf).
Proof.
  assert (Hm : forall n, fst (pack_reverse_comm c n first buf) = 3 * n).
  { intros n. destruct (pack_loop c n first 0 buf) as (Hm & _). exact Hm. }
  split; [reflexivity|]. split; [exact Hm|].
  rewrite Hm. simpl. lia.
Qed.

(** ** Folds *)

Lemma fold_left_flat_map (A B C : Type) (g : C -> B -> C) (h : A -> list B)
  (l : list A) (v : C) :
  fold_left g (flat_map h l) v
  = fold_left (fun v a => fold_left g (h a) v) l v.
Proof.
  revert v. induction l as [|a l IH]; intros v; simpl; [reflexivity|].
  now rewrite fold_left_app, IH.
Qed.

Lemma fold_left_through_map (A B C : Type) (g : C -> B -> C) (phi : A -> B)
  (l : list A) (v : C) :
  fold_left g (map phi l) v = fold_left (fun v a => g v (phi a)) l v.
Proof.
  revert v. induction l as [|a l IH]; intros v; simpl; [reflexivity|].
  apply IH.
Qed.

Lemma fold_left_ext (A C : Type) (g g' : C -> A -> C) (l : list A) (v : C) :
  (forall v a, g v a = g' v a) -> fold_left g l v = fold_left g' l v.
Proof.
  intros Hg. revert v.
  induction l as [|a l IH]; intros v; simpl; [reflexivity|].
  now rewrite Hg, IH.
Qed.

(** The running sum over the upper triangle, row by row. *)
Lemma quad_upper_from_rows (num : Type) (ops : DoubleOps num) (v0 : num)
  (D : nat) (d Sigma : array2 num) (r : nat) :
  quad_upper_from v0 D d Sigma r
  = fold_left
      (fun v nl1 =>
         fold_left
           (fun v nl2 => dadd v (weighted_term d Sigma r (nl1, nl2)))
           (seq nl1 (D - nl1)) v)
      (seq 0 D) v0.
Proof.
  unfold quad_upper_from, upper_pairs.
  rewrite fold_left_flat_map.
  apply fold_left_ext. intros v nl1.
  apply fold_left_through_map.
Qed.

(** ** Sums in exact arithmetic *)

Section ExactSums.
Context {num : Type} `{DoubleOps num}.
Hypothesis exact : ExactArith num.

Add Ring num_ring :
  (exact : ring_theory dzero dunit dadd dmul dsub dopp (@eq num)).

Lemma sumn_ext (n : nat) (f g : nat -> num) :
  (forall i, i < n -> f i = g i) -> sumn n f = sumn n g.
Proof.
  induction n as [|n IH]; intros Hfg; simpl; [reflexivity|].
  rewrite IH, Hfg by (intros; try apply Hfg; lia). reflexivity.
Qed.

Lemma sumn_zero (n : nat) (f : nat -> num) :
  (forall i, i < n -> f i = dzero) -> sumn n f = dzero.
Proof.
  induction n as [|n IH]; intros Hf; simpl; [reflexivity|].
  rewrite IH, Hf by (intros; try apply Hf; lia). ring.
Qed.

Lemma sumn_add (n : nat) (f g : nat -> num) :
  sumn n (fun i => f i + g i)%num = (sumn n f + sumn n g)%num.
Proof.
  induction n as [|n IH]; simpl; [ring|]. rewrite IH. ring.
Qed.

Lemma sumn_scale (n : nat) (f : nat -> num) (c : num) :
  sumn n (fun i => f i * c)%num = (sumn n f * c)%num.
Proof.
  induction n as [|n IH]; simpl; [ring|]. rewrite IH. ring.
Qed.

(** Overwriting one summand. *)
Lemma sumn_update (n i : nat) (f : nat -> num) (v : num) :
  i < n ->
  sumn n (fun a => if a =? i then v else f a)
  = (sumn n f - f i + v)%num.
Proof.
  induction n as [|n IH]; intros Hi; [lia|]. simpl.
  destruct (Nat.eqb_spec n i) as [->|Hne].
  - rewrite (sumn_ext i (fun a => if a =? i then v else f a) f).
    + ring.
    + intros a Ha. destruct (Nat.eqb_spec a i); [lia | reflexivity].
  - rewrite IH by lia. ring.
Qed.

(** A running sum is its start plus the sum of what was added. *)
Lemma fold_adds_sumn (f : nat -> num) (n lo : nat) (z : num) :
  fold_left (fun v k => dadd v (f k)) (seq lo n) z
  = dadd z (sumn n (fun k => f (lo + k))).
Proof.
  revert z. induction n as [|n IH]; intros z.
  - simpl. ring.
  - rewrite seq_S, fold_left_app, IH. simpl. ring.
Qed.

(** The weighted upper triangle of a symmetric matrix is the full double
    sum. *)
Lemma quad_upper_full (D : nat) (d Sigma : array2 num) (r : nat) :
  (forall nl1 nl2, Sigma nl1 nl2 = Sigma nl2 nl1) ->
  quad_upper D d Sigma r = quad_full D d Sigma r.
Proof.
  intros Hsym. unfold quad_upper, quad_full.
  rewrite quad_upper_from_rows.
  set (a := quad_term d Sigma r).
  assert (Ha : forall i j, a i j = a j i).
  { intros i j. unfold a, quad_term. rewrite (Hsym i j). ring. }
  set (w := fun nl1 k =>
              if nl1 =? nl1 + k then a nl1 (nl1 + k)
              else dmul (a nl1 (nl1 + k)) dtwo).
  rewrite fold_left_ext with
    (g' := fun v nl1 => dadd v (sumn (D - nl1) (w nl1))).
  2:{ intros v nl1. unfold w, weighted_term. cbn [fst snd].
      apply (fold_adds_sumn
               (fun nl2 => if nl1 =? nl2 then a nl1 nl2
                           else dmul (a nl1 nl2) dtwo)). }
  rewrite fold_adds_sumn.
  transitivity (sumn D (fun nl1 => sumn (D - nl1) (w nl1)));
    [simpl; ring|].
  clear - exact Ha.
  induction D as [|D IH]; [reflexivity|].
  cbn [sumn].
  rewrite (sumn_ext D (fun nl1 => sumn (S D - nl1) (w nl1))
             (fun nl1 => dadd (sumn (D - nl1) (w nl1))
                              (dmul (a nl1 D) dtwo))).
  2:{ intros i Hi. replace (S D - i) with (S (D - i)) by lia.
      cbn [sumn]. unfold w at 2. replace (i + (D - i)) with D by lia.
      destruct (Nat.eqb_spec i D); [lia | reflexivity]. }
  rewrite sumn_add, sumn_scale, IH, sumn_add.
  replace (S D - D) with 1 by lia. cbn [sumn]. unfold w.
  rewrite Nat.add_0_r, Nat.eqb_refl.
  rewrite (sumn_ext D (fun nl2 => a D nl2) (fun i => a i D))
    by (intros; apply Ha).
  unfold dtwo. ring.
Qed.

End ExactSums.

(** ** The phases of compute_peratom *)

Section PhaseFacts.
Context {num : Type} `{DoubleOps num}.
Variable B2_env_dervs_of :
  @host num -> @compute num -> nat -> nat -> array2 num.

(** Zeroing the first [n] entries of row [r] of the derivative table. *)
Lemma zero_row (r n : nat) (c : @compute num) :
  let c' := for_ n 0
              (fun nl c => with_desc_derv c (aset2 (desc_derv c) r nl dzero))
              c in
  stds c' = stds c /\ potential c' = potential c /\
  forall r' nl,
    desc_derv c' r' nl
    = if (r' =? r) && (nl <? n) then dzero else desc_derv c r' nl.
Proof.
  induction n as [|n IH]; cbv zeta in *.
  - simpl. repeat split. intros r' nl. now rewrite andb_false_r.
  - rewrite for_snoc. simpl Nat.add.
    destruct IH as (Hs & Hp & Hd).
    cbn [stds potential desc_derv with_desc_derv].
    split; [exact Hs|]. split; [exact Hp|].
    intros r' nl. unfold aset2. rewrite Hd.
    destruct (Nat.eqb_spec r' r), (Nat.eqb_spec nl n),
      (Nat.ltb_spec nl n), (Nat.ltb_spec nl (S n));
      simpl; try lia; reflexivity.
Qed.

Lemma zero_component_spec (i comp : nat) (c : @compute num) :
  let c' := zero_component i comp c in
  stds c' = aset2 (stds c) i comp dzero /\
  potential c' = potential c /\
  forall r nl,
    desc_derv c' r nl
    = if (r =? row i comp) && (nl <? ndesc c) then dzero
      else desc_derv c r nl.
Proof.
  unfold zero_component.
  destruct (zero_row (row i comp) (ndesc c)
              (with_stds c (aset2 (stds c) i comp dzero)))
    as (Hs & Hp & Hd).
  cbv zeta. split; [exact Hs|]. split; [exact Hp|]. exact Hd.
Qed.

(** Zeroing an atom: its three stds entries and its three derivative rows
    become zero; whatever else was zero stays zero. *)
Lemma zero_atom_spec (i : nat) (c : @compute num) :
  let c' := zero_atom i c in
  potential c' = potential c /\
  (forall comp, comp < 3 -> stds c' i comp = dzero) /\
  (forall comp nl, comp < 3 -> nl < ndesc c ->
                   desc_derv c' (row i comp) nl = dzero) /\
  (forall a comp, stds c a comp = dzero -> stds c' a comp = dzero) /\
  (forall r nl, desc_derv c r nl = dzero -> desc_derv c' r nl = dzero).
Proof.
  unfold zero_atom. cbn [for_].
  destruct (zero_component_spec i 0 c) as (Hs0 & Hp0 & Hd0).
  set (c0 := zero_component i 0 c) in *.
  destruct (zero_component_spec i 1 c0) as (Hs1 & Hp1 & Hd1).
  set (c1 := zero_component i 1 c0) in *.
  destruct (zero_component_spec i 2 c1) as (Hs2 & Hp2 & Hd2).
  set (c2 := zero_component i 2 c1) in *.
  cbv zeta in *.
  assert (Hn1 : ndesc c1 = ndesc c) by (unfold ndesc; congruence).
  assert (Hn0 : ndesc c0 = ndesc c) by (unfold ndesc; congruence).
  split; [congruence|]. split; [|split; [|split]].
  - intros comp Hcomp. rewrite Hs2, Hs1, Hs0.
    destruct comp as [|[|[|comp]]]; try lia; array_cases; reflexivity.
  - intros comp nl Hcomp Hnl. rewrite Hd2, Hd1, Hd0, Hn1, Hn0.
    destruct (Nat.ltb_spec nl (ndesc c)); [|lia].
    unfold row.
    destruct comp as [|[|[|comp]]]; try lia; array_cases; reflexivity.
  - intros a comp Hz. rewrite Hs2, Hs1, Hs0.
    array_cases; try reflexivity; exact Hz.
  - intros r nl Hz. rewrite Hd2, Hd1, Hd0.
    repeat match goal with
           | |- context [if ?b then _ else _] => destruct b
           end; try reflexivity; exact Hz.
Qed.

(** The zeroing loop reaches the atoms [ilist[ii]], [ii < n]. *)
Lemma reset_loop_zeroes (h : @host num) (c : @compute num) (n : nat) :
  let c' := for_ n 0 (fun ii c => zero_atom (ilist h ii) c) c in
  potential c' = potential c /\
  (forall ii comp, ii < n -> comp < 3 -> stds c' (ilist h ii) comp = dzero) /\
  (forall ii comp nl, ii < n -> comp < 3 -> nl < ndesc c ->
                      desc_derv c' (row (ilist h ii) comp) nl = dzero).
Proof.
  induction n as [|n IH]; cbv zeta in *.
  - simpl. split; [reflexivity|]. split; intros; lia.
  - rewrite for_snoc. simpl Nat.add.
    destruct IH as (Hpot & Hstds & Hdesc).
    destruct (zero_atom_spec (ilist h n)
                (for_ n 0 (fun ii c => zero_atom (ilist h ii) c) c))
      as (Hp & Hs & Hd & Hskeep & Hdkeep).
    set (c1 := for_ n 0 (fun ii c => zero_atom (ilist h ii) c) c) in *.
    assert (Hn : ndesc c1 = ndesc c) by (unfold ndesc; congruence).
    split; [congruence|]. split.
    + intros ii comp Hii Hcomp.
      destruct (Nat.eq_dec ii n) as [->|Hne].
      * apply Hs. exact Hcomp.
      * apply Hskeep. apply Hstds; [lia | exact Hcomp].
    + intros ii comp nl Hii Hcomp Hnl.
      destruct (Nat.eq_dec ii n) as [->|Hne].
      * apply Hd; [exact Hcomp | lia].
      * apply Hdkeep. apply Hdesc; [lia | exact Hcomp | exact Hnl].
Qed.

Lemma grow_potential (h : @host num) (c : @compute num) :
  potential (grow h c) = potential c.
Proof. unfold grow. destruct (nmax c <? atom_nmax h); reflexivity. Qed.

(** After the zeroing loop of compute_peratom: the potential is the loaded
    one, and the atoms [ilist[ii]], [ii < ntotal], are zeroed. *)
Lemma after_reset (h : @host num) (c : @compute num) :
  let c' := reset h (grow h c) in
  potential c' = potential c /\
  (forall ii comp, ii < ntotal h -> comp < 3 ->
                   stds c' (ilist h ii) comp = dzero) /\
  (forall ii comp nl, ii < ntotal h -> comp < 3 -> nl < ndesc c ->
                      desc_derv c' (row (ilist h ii) comp) nl = dzero).
Proof.
  destruct (reset_loop_zeroes h (grow h c) (ntotal h))
    as (Hpot & Hstds & Hdesc).
  pose proof (grow_potential h c) as Hgrow.
  assert (Hn : ndesc (grow h c) = ndesc c) by (unfold ndesc; congruence).
  cbv zeta. unfold reset.
  split; [congruence|]. split; [exact Hstds|].
  intros ii comp nl Hii Hcomp Hnl. apply Hdesc; try assumption. lia.
Qed.

(** What reaches the evaluation: the loaded potential, and zeros in the
    stds entries of the listed atoms. *)
Lemma before_evaluate (h : @host num) (c : @compute num) :
  let c' := accumulate B2_env_dervs_of h (reset h (grow h c)) in
  potential c' = potential c /\
  forall ii comp, ii < ntotal h -> comp < 3 ->
                  stds c' (ilist h ii) comp = dzero.
Proof.
  destruct (after_reset h c) as (Hpot & Hstds & _).
  split; [exact Hpot | exact Hstds].
Qed.

End PhaseFacts.

(** ** The evaluation as a running sum *)

Section EvaluateFacts.
Context {num : Type} `{DoubleOps num}.

(** A loop whose every pass changes one cell by [F k] folds [F] over the
    loop range. *)
Lemma for_folds (n lo : nat) (body : nat -> array2 num -> array2 num)
  (F : nat -> num -> num) (i comp : nat) (s0 : array2 num) :
  (forall k s, body k s i comp = F k (s i comp)) ->
  for_ n lo body s0 i comp
  = fold_left (fun v k => F k v) (seq lo n) (s0 i comp).
Proof.
  intros Hbody. revert lo s0.
  induction n as [|n IH]; intros lo s0; simpl; [reflexivity|].
  now rewrite IH, Hbody.
Qed.

Lemma for_keeps (n lo : nat) (body : nat -> array2 num -> array2 num)
  (a comp : nat) (s0 : array2 num) :
  (forall k s, body k s a comp = s a comp) ->
  for_ n lo body s0 a comp = s0 a comp.
Proof.
  intros Hbody.
  induction n as [|n IH]; [reflexivity|].
  now rewrite for_snoc, Hbody.
Qed.

(** The loops over [nl1], [nl2], [comp] for atom [i] continue the running
    sum held in stds[i][comp]. *)
Lemma evaluate_atom_folds (c : @compute num) (i itype comp : nat)
  (s : array2 num) :
  comp < 3 ->
  evaluate_atom c i itype s i comp
  = quad_upper_from (s i comp) (ndesc c) (desc_derv c)
      (nth (itype - 1) (beta_matrices (potential c)) Zero) (row i comp).
Proof.
  intros Hcomp. rewrite quad_upper_from_rows. unfold evaluate_atom.
  set (Sigma := nth (itype - 1) (beta_matrices (potential c)) Zero).
  rewrite for_folds with
    (F := fun nl1 v =>
            fold_left
              (fun v nl2 =>
                 dadd v (weighted_term (desc_derv c) Sigma (row i comp)
                           (nl1, nl2)))
              (seq nl1 (ndesc c - nl1)) v);
    [reflexivity|].
  intros nl1 s1.
  rewrite for_folds with
    (F := fun nl2 v =>
            dadd v (weighted_term (desc_derv c) Sigma (row i comp)
                      (nl1, nl2)));
    [reflexivity|].
  intros nl2 s2. cbn [for_]. unfold weighted_term, quad_term. cbn [fst snd].
  destruct (nl1 =? nl2);
    destruct comp as [|[|[|comp]]]; try lia; array_cases; reflexivity.
Qed.

Lemma evaluate_atom_keeps (c : @compute num) (i itype a comp : nat)
  (s : array2 num) :
  a <> i -> evaluate_atom c i itype s a comp = s a comp.
Proof.
  intros Hne. unfold evaluate_atom.
  apply for_keeps. intros nl1 s1.
  apply for_keeps. intros nl2 s2.
  apply for_keeps. intros comp' s3.
  destruct (nl1 =? nl2); array_cases; reflexivity.
Qed.

Lemma evaluate_untouched (h : @host num) (c : @compute num) (n a comp : nat)
  (s0 : array2 num) :
  (forall ii, ii < n -> ilist h ii <> a) ->
  for_ n 0
    (fun ii s => evaluate_atom c (ilist h ii) (type h (ilist h ii)) s)
    s0 a comp
  = s0 a comp.
Proof.
  induction n as [|n IH]; intros Hout; [reflexivity|].
  rewrite for_snoc. simpl Nat.add.
  rewrite evaluate_atom_keeps
    by (intros Heq; apply (Hout n); [lia | congruence]).
  apply IH. intros ii Hii. apply Hout. lia.
Qed.

(** An atom listed once is evaluated once. *)
Lemma evaluate_listed (h : @host num) (c : @compute num) (n ii comp : nat)
  (s0 : array2 num) :
  ii < n ->
  (forall ii1 ii2, ii1 < n -> ii2 < n ->
                   ilist h ii1 = ilist h ii2 -> ii1 = ii2) ->
  comp < 3 ->
  for_ n 0
    (fun ii s => evaluate_atom c (ilist h ii) (type h (ilist h ii)) s)
    s0 (ilist h ii) comp
  = quad_upper_from (s0 (ilist h ii) comp) (ndesc c) (desc_derv c)
      (nth (type h (ilist h ii) - 1) (beta_matrices (potential c)) Zero)
      (row (ilist h ii) comp).
Proof.
  induction n as [|n IH]; intros Hii Hinj Hcomp; [lia|].
  rewrite for_snoc. simpl Nat.add.
  destruct (Nat.eq_dec ii n) as [->|Hne].
  - rewrite evaluate_atom_folds by exact Hcomp.
    rewrite evaluate_untouched; [reflexivity|].
    intros ii' Hii' Heq. specialize (Hinj ii' n ltac:(lia) ltac:(lia) Heq).
    lia.
  - rewrite evaluate_atom_keeps.
    + apply IH; [lia | | exact Hcomp].
      intros ii1 ii2 H1 H2. apply Hinj; lia.
    + intros Heq. specialize (Hinj ii n ltac:(lia) ltac:(lia) Heq). lia.
Qed.

End EvaluateFacts.

(** C2. For every atom [i] of the neighbor list and every component
    [comp], compute_peratom leaves in stds[i][comp] the running sum, started
    at zero, over the upper triangle [nl1 <= nl2] of
    [d[nl1] * Sigma(nl1, nl2) * d[nl2]], taken once on the diagonal and
    twice off it, where [d] is row [(i, comp)] of the accumulated derivative
    table and [Sigma] the loaded matrix of the atom's species.  Nothing else
    is applied to the value: no square root, no normalization.  In exact
    arithmetic this sum is the full quadratic form [d^T Sigma d]. *)
Theorem compute_peratom_quadratic_form
  (num : Type) (ops : DoubleOps num)
  (B2_env_dervs_of : @host num -> @compute num -> nat -> nat -> array2 num)
  (filename : string) (pf : potential_file)
  (h : @host num) (c : @compute num) (ii comp : nat) :
  read_file filename (Some pf) = Ok (potential c) ->
  ii < inum h ->
  inum h <= ntotal h ->
  (forall ii1 ii2, ii1 < inum h -> ii2 < inum h ->
                   ilist h ii1 = ilist h ii2 -> ii1 = ii2) ->
  1 <= type h (ilist h ii) <= Z.to_nat (n_species (potential c)) ->
  comp < 3 ->
  let c' := compute_peratom B2_env_dervs_of h c in
  let i := ilist h ii in
  let Sigma := nth (type h i - 1) (beta_matrices (potential c)) Zero in
  stds c' i comp = quad_upper (ndesc c) (desc_derv c') Sigma (row i comp) /\
  (ExactArith num ->
   stds c' i comp = quad_full (ndesc c) (desc_derv c') Sigma (row i comp)).
Proof.
  intros Hread Hii Hinum Hinj Htype Hcomp c' i Sigma.
  destruct (before_evaluate B2_env_dervs_of h c) as [Hpot Hzero].
  set (c1 := accumulate B2_env_dervs_of h (reset h (grow h c))) in *.
  assert (Hupper : stds c' i comp
                   = quad_upper (ndesc c) (desc_derv c') Sigma (row i comp)).
  { unfold c', compute_peratom. fold c1.
    cbn [evaluate stds desc_derv with_stds].
    rewrite (evaluate_listed h c1 (inum h) ii comp) by assumption.
    rewrite Hzero by (try assumption; lia).
    unfold quad_upper, ndesc, Sigma, i. rewrite Hpot. reflexivity. }
  split; [exact Hupper|].
  intros exact. rewrite Hupper. apply (quad_upper_full exact).
  intros nl1 nl2. unfold Sigma, i.
  apply (loaded_matrix_symmetric filename pf); [exact Hread | lia].
Qed.

Lemma compute_peratom_quadratic_form_witness :
  stds (compute_peratom Samples.along_x Samples.two_atoms
          (Samples.fresh_compute Samples.three_descriptors)) 1 0
  = quad_full 3
      (desc_derv (compute_peratom Samples.along_x Samples.two_atoms
                    (Samples.fresh_compute Samples.three_descriptors)))
      (nth 0 (beta_matrices (Samples.load Samples.three_descriptors)) Zero)
      (row 1 0).
Proof.
  destruct (compute_peratom_quadratic_form Z ExactZ.ops
              Samples.along_x "flare.std" Samples.three_descriptors
              Samples.two_atoms
              (Samples.fresh_compute Samples.three_descriptors) 1 0)
    as [_ Hfull].
  - vm_compute. reflexivity.
  - vm_compute. lia.
  - vm_compute. lia.
  - simpl. intros ii1 ii2 _ _ Heq. exact Heq.
  - vm_compute. lia.
  - lia.
  - exact (Hfull ExactZ.exact).
Defined.

(** The scenario of two atoms, one species, one descriptor with covariance
    [v = 7]: derivative rows [a] and [-a] give [a * a * v] for both atoms in
    the interacting component and nothing in the others. *)
Example two_atoms_one_descriptor :
  let c' := compute_peratom Samples.along_x Samples.two_atoms
              (Samples.fresh_compute Samples.one_descriptor) in
  desc_derv c' (row 0 0) 0 = (-1)%Z /\ desc_derv c' (row 1 0) 0 = 1%Z /\
  stds c' 0 0 = 7%Z /\ stds c' 1 0 = 7%Z /\
  stds c' 0 1 = 0%Z /\ stds c' 0 2 = 0%Z /\
  stds c' 1 1 = 0%Z /\ stds c' 1 2 = 0%Z.
Proof. vm_compute. repeat split. Qed.

(** ** Column sums of the derivative table *)

Section AccumulateFacts.
Context {num : Type} `{DoubleOps num}.
Hypothesis exact : ExactArith num.
Variable B2_env_dervs_of :
  @host num -> @compute num -> nat -> nat -> array2 num.

Add Ring num_ring_acc :
  (exact : ring_theory dzero dunit dadd dmul dsub dopp (@eq num)).

(** One store into the table, seen from the sum of a column. *)
Lemma column_sum_aset2 (nall i comp0 nl0 comp nl : nat) (d : array2 num)
  (v : num) :
  i < nall -> comp0 < 3 -> comp < 3 ->
  column_sum nall (aset2 d (row i comp0) nl0 v) comp nl
  = if (comp0 =? comp) && (nl0 =? nl)
    then dadd (dsub (column_sum nall d comp nl) (d (row i comp) nl)) v
    else column_sum nall d comp nl.
Proof.
  intros Hi Hcomp0 Hcomp. unfold column_sum.
  destruct (Nat.eqb_spec comp0 comp) as [->|Hc];
    [destruct (Nat.eqb_spec nl0 nl) as [->|Hn]|]; simpl.
  - rewrite <- (sumn_update exact nall i (fun a => d (row a comp) nl) v Hi).
    apply (sumn_ext nall). intros a Ha. unfold aset2.
    rewrite Nat.eqb_refl, andb_true_r.
    destruct (Nat.eqb_spec (row a comp) (row i comp)) as [Heq|Hne],
      (Nat.eqb_spec a i); try reflexivity.
    + apply row_inj in Heq; [lia | assumption | assumption].
    + subst a. contradiction.
  - apply (sumn_ext nall). intros a Ha. apply aset2_other. right. lia.
  - apply (sumn_ext nall). intros a Ha. apply aset2_other. left.
    intros Heq. apply row_inj in Heq; [lia | assumption | assumption].
Qed.

(** Adding a value to atom [i] and subtracting it from atom [j] leaves
    every column sum as it was. *)
Lemma scatter_row_column_sum (c : @compute num) (B2_env_dervs : array2 num)
  (nall i j n_count comp nl : nat) (d : array2 num) :
  i < nall -> j < nall -> comp < 3 ->
  column_sum nall (scatter_row c B2_env_dervs i j n_count d) comp nl
  = column_sum nall d comp nl.
Proof.
  intros Hi Hj Hcomp. unfold scatter_row.
  apply for_invariant with
    (P := fun d' => column_sum nall d' comp nl = column_sum nall d comp nl);
    [reflexivity|].
  intros comp0 d1 Hcomp0 Hd1.
  apply for_invariant with
    (P := fun d' => column_sum nall d' comp nl = column_sum nall d comp nl);
    [exact Hd1|].
  intros nl0 d2 _ Hd2. cbv zeta.
  rewrite !column_sum_aset2 by (assumption || lia).
  destruct ((comp0 =? comp) && (nl0 =? nl)) eqn:Hcell; [|exact Hd2].
  apply andb_prop in Hcell. destruct Hcell as [Hc Hn].
  apply Nat.eqb_eq in Hc, Hn. subst comp0 nl0.
  rewrite Hd2. ring.
Qed.

Lemma accumulate_atom_column_sum (h : @host num) (c : @compute num)
  (nall i comp nl : nat) (d : array2 num) :
  i < nall ->
  (forall jj, jj < numneigh h i -> firstneigh h i jj < nall) ->
  comp < 3 ->
  column_sum nall (accumulate_atom B2_env_dervs_of h c i d) comp nl
  = column_sum nall d comp nl.
Proof.
  intros Hi Hneigh Hcomp. unfold accumulate_atom.
  apply for_invariant with
    (P := fun st : nat * array2 num =>
            column_sum nall (snd st) comp nl = column_sum nall d comp nl);
    [reflexivity|].
  intros jj [n_count d1] Hjj Hd1. simpl in Hd1.
  destruct (inside_cutoff c _ _ _); simpl; [|exact Hd1].
  rewrite scatter_row_column_sum; [exact Hd1 | exact Hi | | exact Hcomp].
  apply Hneigh. lia.
Qed.

Lemma accumulate_column_sum (h : @host num) (c : @compute num)
  (nall comp nl : nat) :
  (forall ii, ii < inum h -> ilist h ii < nall) ->
  (forall ii jj, ii < inum h -> jj < numneigh h (ilist h ii) ->
                 firstneigh h (ilist h ii) jj < nall) ->
  comp < 3 ->
  column_sum nall (desc_derv (accumulate B2_env_dervs_of h c)) comp nl
  = column_sum nall (desc_derv c) comp nl.
Proof.
  intros Hlist Hneigh Hcomp. cbn [accumulate desc_derv with_desc_derv].
  apply for_invariant with
    (P := fun d' => column_sum nall d' comp nl
                    = column_sum nall (desc_derv c) comp nl);
    [reflexivity|].
  intros ii d1 Hii Hd1.
  rewrite accumulate_atom_column_sum; [exact Hd1 | | | exact Hcomp].
  - apply Hlist. lia.
  - intros jj Hjj. apply Hneigh; [lia | exact Hjj].
Qed.

End AccumulateFacts.

(** The accumulation pass by itself leaves the sum over all atoms, owned and
    ghost, of every column of the derivative table as it found it, since
    each contribution added to atom [i] is subtracted from atom [j]; started
    from the zeroed table, every such sum is zero afterwards.  In
    compute_peratom this is the state after the accumulation whenever the
    zeroing loop has reached every atom, as it does for two owned atoms
    interacting on their own.  Exact arithmetic; the host's indices are
    those of atoms it has. *)
Theorem accumulate_column_sums_cancel
  (num : Type) (ops : DoubleOps num) (exact : ExactArith num)
  (B2_env_dervs_of : @host num -> @compute num -> nat -> nat -> array2 num)
  (h : @host num) (c : @compute num) (comp nl : nat) :
  let nall := nlocal h + nghost h in
  (forall ii, ii < inum h -> ilist h ii < nall) ->
  (forall ii jj, ii < inum h -> jj < numneigh h (ilist h ii) ->
                 firstneigh h (ilist h ii) jj < nall) ->
  comp < 3 ->
  column_sum nall (desc_derv (accumulate B2_env_dervs_of h c)) comp nl
  = column_sum nall (desc_derv c) comp nl /\
  ((forall a, a < nall -> desc_derv c (row a comp) nl = dzero) ->
   column_sum nall (desc_derv (accumulate B2_env_dervs_of h c)) comp nl
   = dzero) /\
  ((forall a, a < nall -> exists ii, ii < ntotal h /\ ilist h ii = a) ->
   nl < ndesc c ->
   column_sum nall
     (desc_derv (accumulate B2_env_dervs_of h (reset h (grow h c)))) comp nl
   = dzero).
Proof.
  intros nall Hlist Hneigh Hcomp.
  assert (Hkeep : forall c0 : @compute num,
             column_sum nall (desc_derv (accumulate B2_env_dervs_of h c0))
               comp nl
             = column_sum nall (desc_derv c0) comp nl).
  { intros c0.
    exact (accumulate_column_sum exact B2_env_dervs_of h c0 nall comp nl
             Hlist Hneigh Hcomp). }
  split; [apply Hkeep|]. split.
  - intros Hzero. rewrite Hkeep. unfold column_sum.
    apply (sumn_zero exact). exact Hzero.
  - intros Hcover Hnl. rewrite Hkeep. unfold column_sum.
    apply (sumn_zero exact). intros a Ha.
    destruct (Hcover a Ha) as (ii & Hii & <-).
    destruct (after_reset h c) as (_ & _ & Hdesc).
    apply Hdesc; assumption.
Qed.

Lemma accumulate_column_sums_cancel_witness :
  column_sum 2
    (desc_derv (accumulate Samples.along_x Samples.two_atoms
                  (reset Samples.two_atoms
                     (grow Samples.two_atoms
                        (Samples.fresh_compute Samples.three_descriptors)))))
    0 1
  = 0%Z.
Proof.
  destruct (accumulate_column_sums_cancel Z ExactZ.ops ExactZ.exact
              Samples.along_x Samples.two_atoms
              (Samples.fresh_compute Samples.three_descriptors) 0 1)
    as (_ & _ & Hstep).
  - intros ii Hii. exact Hii.
  - intros ii jj Hii _. destruct ii; cbn; lia.
  - lia.
  - apply Hstep.
    + intros a Ha. exists a. split; [exact Ha | reflexivity].
    + vm_compute. lia.
Defined.

(** C4, at the input where the source departs from it.  One owned atom
    and one ghost, its periodic image, inside the cutoff: an isolated
    two-atom interaction.  The zeroing loop has not reached the ghost (its
    row still holds the 9 of the fresh array), the accumulation adds 1 to
    the owner's row and subtracts 1 from the ghost's, and the column summed
    over both atoms is 9 after the accumulation pass of compute_peratom,
    not zero.  The accumulation keeps the sum it finds; it is the zeroing
    that leaves it at 9. *)
Theorem accumulated_column_sum_not_zero :
  let h := Samples.atom_and_image (fun _ => 0) in
  let c := Samples.fresh_compute Samples.one_descriptor in
  let zeroed := reset h (grow h c) in
  let accumulated := accumulate Samples.along_x h zeroed in
  nlocal h + nghost h = 2 /\
  (desc_derv zeroed (row 0 0) 0 = 0%Z /\
   desc_derv zeroed (row 1 0) 0 = 9%Z) /\
  (desc_derv accumulated (row 0 0) 0 = 1%Z /\
   desc_derv accumulated (row 1 0) 0 = 8%Z) /\
  column_sum 2 (desc_derv zeroed) 0 0 = 9%Z /\
  column_sum 2 (desc_derv accumulated) 0 0 = 9%Z /\
  column_sum 2 (desc_derv (compute_peratom Samples.along_x h c)) 0 0 = 9%Z.
Proof.
  cbv zeta. split; [reflexivity|].
  repeat split; vm_compute; reflexivity.
Qed.

(** ** Ghost atoms *)

(** C9, at the input where the source departs from it.  One owned atom
    and one ghost; list->inum is 1 and the memory behind list->ilist holds
    zeros.  The zeroing loop runs over [ii < ntotal = 2] and reads
    [ilist[ii]] both times as atom 0: the owned atom is zeroed, the ghost
    atom 1 keeps what the fresh arrays held. *)
Theorem reset_misses_ghost_atom :
  let h := Samples.atom_and_image (fun _ => 0) in
  let c := reset h (grow h (Samples.fresh_compute Samples.one_descriptor)) in
  ntotal h = 2 /\ inum h = 1 /\ ndesc c = 1 /\
  (forall comp, comp < 3 ->
     stds c 0 comp = 0%Z /\ desc_derv c (row 0 comp) 0 = 0%Z) /\
  (forall comp, comp < 3 ->
     stds c 1 comp = 9%Z /\ desc_derv c (row 1 comp) 0 = 9%Z).
Proof.
  cbv zeta. split; [reflexivity|]. split; [reflexivity|].
  split; [reflexivity|].
  split; intros comp Hcomp;
    destruct comp as [|[|[|comp]]]; try lia; vm_compute; split; reflexivity.
Qed.

(** C5, at the input where the source departs from it.  One owned atom
    whose only neighbor is its own periodic image, a ghost; every atom is
    zeroed here.  compute_peratom runs reset, accumulate, evaluate: the
    share [-1] deposited on the ghost is still on the ghost at the end, and
    stds is computed from the owner's unreduced row ([1 * 7 * 1]), where the
    reduction of the specification gives the row [1 + (-1) = 0] and the
    value [0].  The reverse-communication pair could not have folded the
    rows in any case: it reads and writes stds only. *)
Theorem compute_peratom_skips_reduction :
  let h := Samples.atom_and_image (fun ii => ii) in
  let c0 := Samples.fresh_compute Samples.one_descriptor in
  let c' := compute_peratom Samples.along_x h c0 in
  (desc_derv c' (row 0 0) 0 = 1%Z /\ desc_derv c' (row 1 0) 0 = (-1)%Z /\
   stds c' 0 0 = 7%Z) /\
  (let c'' := spec_compute_peratom Samples.along_x (fun _ => 0) h c0 in
   desc_derv c'' (row 0 0) 0 = 0%Z /\ stds c'' 0 0 = 0%Z) /\
  (forall (c : @compute Z) n list buf,
      desc_derv (unpack_reverse_comm c n list buf) = desc_derv c) /\
  (forall (c : @compute Z) d n first buf,
      pack_reverse_comm (with_desc_derv c d) n first buf
      = pack_reverse_comm c n first buf).
Proof.
  cbv zeta. split; [|split; [|split]].
  - vm_compute. repeat split.
  - vm_compute. repeat split.
  - intros c n list buf. reflexivity.
  - intros c d n first buf. reflexivity.
Qed.

(** * Further properties of the source *)

(** ** Construction and coefficients *)

Section SetupFacts.
Context {num : Type} `{DoubleOps num}.

(** The only configuration errors of read_file. *)
Lemma read_file_errors (filename : string) (fptr : option potential_file)
  (msg : string) :
  read_file filename fptr = Error msg ->
  msg = String.append "Cannot open variance file " filename \/
  msg = "Beta size doesn't match the number of descriptors."%string.
Proof.
  unfold read_file. destruct fptr as [pf|].
  - destruct (negb (beta_check pf =? f_beta_size pf)%Z).
    + intros Hmsg. injection Hmsg as <-. right. reflexivity.
    + destruct (grab (f_tail pf) (Int.mul (f_beta_size pf) (f_n_species pf)))
        as [st|msg'|f] eqn:Hgrab.
      * destruct (Z.to_nat (Int.mul (f_beta_size pf) (f_n_species pf))
                  <? g_i st); discriminate.
      * exfalso. exact (grab_loop_no_error _ _ _ _ Hgrab).
      * discriminate.
  - intros Hmsg. injection Hmsg as <-. left. reflexivity.
Qed.

(** The diagonal loop of allocate. *)
Lemma allocate_setflag (env : @environment num) (s : setup) (a b : nat) :
  setflag (allocate env s) a b
  = if (a =? b) && (1 <=? a) && (a <=? atom_ntypes env) then 1%Z
    else fresh_setflag env a b.
Proof.
  unfold allocate. cbn [setflag].
  induction (atom_ntypes env) as [|n IH].
  - cbn [for_].
    destruct (Nat.eqb_spec a b), (Nat.leb_spec 1 a), (Nat.leb_spec a 0);
      simpl; try lia; reflexivity.
  - rewrite for_snoc. unfold aset2 at 1. rewrite IH.
    destruct (Nat.eqb_spec a (1 + n)), (Nat.eqb_spec b (1 + n)),
      (Nat.eqb_spec a b), (Nat.leb_spec 1 a), (Nat.leb_spec a n),
      (Nat.leb_spec a (S n)); simpl; try lia; reflexivity.
Qed.

End SetupFacts.

(** X1. The constructor never completes.  With a positive argument count
    settings ends the run; with any other count coeff does, since it asks
    for exactly three arguments. *)
Theorem constructor_never_completes
  (num : Type) (ops : DoubleOps num) (env : @environment num) (s0 : setup)
  (narg : Z) (arg : nat -> string) :
  ComputeFlareStdAtom env s0 narg arg
  = Error (if (0 <? narg)%Z then "Illegal compute command"
           else "Incorrect args for compute coefficients").
Proof.
  unfold ComputeFlareStdAtom, settings.
  destruct (Z.ltb_spec 0 narg) as [Hpos|Hneg]; [reflexivity|].
  unfold coeff.
  destruct (Z.eqb_spec narg 3); [lia | reflexivity].
Qed.

(** X2. coeff ends with "Incorrect args for compute coefficients" exactly
    when the argument count is not three or one of the two pair specifiers
    is not a star; with three arguments and two stars its outcome is that
    of read_file on the third argument. *)
Theorem coeff_checks_arguments
  (num : Type) (ops : DoubleOps num) (env : @environment num) (s : setup)
  (narg : Z) (arg : nat -> string) :
  (coeff env narg arg s = Error "Incorrect args for compute coefficients"
   <-> (narg <> 3%Z \/ arg 0 <> "*"%string \/ arg 1 <> "*"%string)) /\
  (narg = 3%Z -> arg 0 = "*"%string -> arg 1 = "*"%string ->
   (forall ld, read_file (arg 2) (open_potential env (arg 2)) = Ok ld ->
               exists s', coeff env narg arg s = Ok (s', ld) /\
                          allocated s' = true) /\
   (forall msg, read_file (arg 2) (open_potential env (arg 2)) = Error msg ->
                coeff env narg arg s = Error msg) /\
   (forall f, read_file (arg 2) (open_potential env (arg 2)) = Fault f ->
              coeff env narg arg s = Fault f)).
Proof.
  unfold coeff. split.
  - destruct (Z.eqb_spec narg 3) as [Hn|Hn]; simpl.
    2:{ split; [intros _; left; exact Hn | reflexivity]. }
    destruct (String.eqb_spec (arg 0) "*") as [H0|H0]; simpl.
    2:{ split; [intros _; right; left; exact H0 | reflexivity]. }
    destruct (String.eqb_spec (arg 1) "*") as [H1|H1]; simpl.
    2:{ split; [intros _; right; right; exact H1 | reflexivity]. }
    split.
    + destruct (read_file (arg 2) (open_potential env (arg 2)))
        as [ld|msg|f] eqn:Hread; try discriminate.
      intros Hmsg. injection Hmsg as ->.
      destruct (read_file_errors _ _ _ Hread) as [Hm|Hm]; discriminate.
    + intros [Hc|[Hc|Hc]]; contradiction.
  - intros -> H0 H1. rewrite H0, H1. simpl.
    split; [|split].
    + intros ld ->.
      destruct (allocated s) eqn:Ha; eexists; split; try reflexivity.
      exact Ha.
    + intros msg ->. reflexivity.
    + intros f ->. reflexivity.
Qed.

Lemma coeff_checks_arguments_witness :
  exists s' ld,
    coeff MoreSamples.two_types 3 MoreSamples.star_star_file
      MoreSamples.nothing_allocated = Ok (s', ld).
Proof.
  destruct (coeff_checks_arguments Z ExactZ.ops MoreSamples.two_types
              MoreSamples.nothing_allocated 3 MoreSamples.star_star_file)
    as [_ Hgood].
  destruct (Hgood eq_refl eq_refl eq_refl) as (Hok & _ & _).
  destruct (read_file "flare.std" (Some Samples.three_descriptors))
    as [ld|msg|f] eqn:Hread; [|vm_compute in Hread; discriminate ..].
  destruct (Hok ld Hread) as (s' & Hs' & _).
  exists s', ld. exact Hs'.
Defined.

(** X3. After a coeff that had to allocate, the pair-validity query
    answers with the cutoff for every pair [(i, i)] of an existing type,
    and for every other pair with whatever the fresh setflag memory holds:
    no other flag is ever assigned. *)
Theorem init_one_after_coeff
  (num : Type) (ops : DoubleOps num) (env : @environment num) (s s' : setup)
  (narg : Z) (arg : nat -> string) (ld : loaded) :
  allocated s = false ->
  coeff env narg arg s = Ok (s', ld) ->
  (forall i, 1 <= i <= atom_ntypes env ->
             init_one s' ld i i = Ok (cutoff ld)) /\
  (forall i j, i <> j \/ i = 0 \/ atom_ntypes env < i ->
     init_one s' ld i j
     = if (fresh_setflag env i j =? 0)%Z
       then Error "All pair coeffs are not set"
       else Ok (cutoff ld)).
Proof.
  intros Halloc Hcoeff. unfold coeff in Hcoeff. rewrite Halloc in Hcoeff.
  destruct (negb (narg =? 3)%Z); [discriminate|].
  destruct (negb (String.eqb (arg 0) "*") || negb (String.eqb (arg 1) "*"));
    [discriminate|].
  destruct (read_file (arg 2) (open_potential env (arg 2)))
    as [ld'|msg|f]; try discriminate.
  injection Hcoeff as <- <-.
  unfold init_one. split.
  - intros i Hi. rewrite allocate_setflag, Nat.eqb_refl.
    destruct (Nat.leb_spec 1 i), (Nat.leb_spec i (atom_ntypes env));
      try lia. reflexivity.
  - intros i j Hij. rewrite allocate_setflag.
    destruct (Nat.eqb_spec i j), (Nat.leb_spec 1 i),
      (Nat.leb_spec i (atom_ntypes env)); simpl; try lia; reflexivity.
Qed.

Lemma init_one_after_coeff_witness :
  exists s' ld,
    coeff MoreSamples.two_types 3 MoreSamples.star_star_file
      MoreSamples.nothing_allocated = Ok (s', ld) /\
    init_one s' ld 2 2 = Ok 5%Z /\
    init_one s' ld 1 2 = Error "All pair coeffs are not set".
Proof.
  destruct (coeff MoreSamples.two_types 3 MoreSamples.star_star_file
              MoreSamples.nothing_allocated) as [[s' ld]|msg|f] eqn:Hcoeff;
    [|vm_compute in Hcoeff; discriminate ..].
  exists s', ld. split; [reflexivity|].
  destruct (init_one_after_coeff Z ExactZ.ops MoreSamples.two_types
              MoreSamples.nothing_allocated s' 3 MoreSamples.star_star_file
              ld eq_refl Hcoeff) as [Hdiag Hoff].
  assert (Hcut : cutoff ld = 5%Z).
  { vm_compute in Hcoeff. injection Hcoeff as _ <-. reflexivity. }
  split.
  - rewrite (Hdiag 2) by (simpl; lia). now rewrite Hcut.
  - rewrite (Hoff 1 2) by (left; lia). reflexivity.
Defined.

(** ** Storage and the loaded potential across a step *)

Section StepFacts.
Context {num : Type} `{DoubleOps num}.
Variable B2_env_dervs_of :
  @host num -> @compute num -> nat -> nat -> array2 num.

Lemma reset_nmax (h : @host num) (c : @compute num) :
  nmax (reset h c) = nmax c.
Proof.
  unfold reset.
  apply for_invariant with (P := fun c' => nmax c' = nmax c);
    [reflexivity|].
  intros ii c1 _ Hc1. unfold zero_atom.
  apply for_invariant with (P := fun c' => nmax c' = nmax c); [exact Hc1|].
  intros comp c2 _ Hc2. unfold zero_component.
  apply for_invariant with (P := fun c' => nmax c' = nmax c); [exact Hc2|].
  intros nl c3 _ Hc3. exact Hc3.
Qed.

Lemma grow_nmax (h : @host num) (c : @compute num) :
  nmax (grow h c) = Nat.max (nmax c) (atom_nmax h).
Proof.
  unfold grow.
  destruct (Nat.ltb_spec (nmax c) (atom_nmax h)); cbn [nmax]; lia.
Qed.

End StepFacts.

(** X4. A step never shrinks the per-atom storage and never touches the
    loaded potential: afterwards nmax is the larger of its old value and
    the host's atom->nmax, memory_usage reports eight bytes for each of
    these slots, and the members set by read_file are as before. *)
Theorem compute_peratom_storage
  (num : Type) (ops : DoubleOps num)
  (B2_env_dervs_of : @host num -> @compute num -> nat -> nat -> array2 num)
  (h : @host num) (c : @compute num) :
  let c' := compute_peratom B2_env_dervs_of h c in
  nmax c' = Nat.max (nmax c) (atom_nmax h) /\
  memory_usage c' = 8 * Nat.max (nmax c) (atom_nmax h) /\
  memory_usage c <= memory_usage c' /\
  potential c' = potential c.
Proof.
  intros c'.
  assert (Hn : nmax c' = Nat.max (nmax c) (atom_nmax h)).
  { unfold c', compute_peratom.
    cbn [evaluate accumulate nmax with_stds with_desc_derv].
    rewrite reset_nmax. apply grow_nmax. }
  split; [exact Hn|].
  unfold memory_usage. rewrite Hn.
  split; [lia|]. split; [lia|].
  destruct (before_evaluate B2_env_dervs_of h c) as [Hpot _].
  exact Hpot.
Qed.

(** ** grab, line by line *)

Lemma append_char_nonempty (cur : string) (c : ascii) :
  String.eqb (cur ++ String c "") "" = false.
Proof. destruct cur; reflexivity. Qed.

(** Walking the buffer strtok has left behind finds the first token again,
    and nothing else. *)
Lemma strtok_from_residue (s cur : string) :
  strtok_from (after_strtok s (negb (String.eqb cur ""))) cur
  = firstn 1 (strtok_from s cur).
Proof.
  revert cur. induction s as [|c s IH]; intros cur.
  - simpl. destruct (String.eqb cur ""); reflexivity.
  - simpl. destruct (is_delim c) eqn:Hdelim.
    + destruct (String.eqb cur "") eqn:Hcur; simpl.
      * rewrite Hdelim, Hcur.
        specialize (IH ""%string). simpl in IH. exact IH.
      * rewrite Hcur. reflexivity.
    + destruct (String.eqb cur "") eqn:Hcur; simpl; rewrite Hdelim.
      * specialize (IH (cur ++ String c "")%string).
        rewrite append_char_nonempty in IH. exact IH.
      * specialize (IH (cur ++ String c "")%string).
        rewrite append_char_nonempty in IH. exact IH.
Qed.

Lemma strtok_all_residue (l : string) :
  strtok_all (after_strtok l false) = firstn 1 (strtok_all l).
Proof. exact (strtok_from_residue l ""). Qed.

Section GrabLines.
Context {num : Type} `{DoubleOps num}.

(** As long as values are missing before each of them, non-blank lines
    are read one per pass, every token of each is stored. *)
Lemma grab_loop_lines (lines rest : list string) :
  forall (fuel : nat) (n : Z) (st : grab_state),
    g_fptr st = lines ++ rest ->
    Forall (fun l => strtok_all l <> []) lines ->
    (lines = [] \/
     (Z.of_nat (g_i st + List.length (tokens_of (removelast lines))) < n)%Z) ->
    grab_loop (List.length lines + fuel) n st
    = grab_loop fuel n
        {| g_fptr := rest;
           g_line := buffer_after lines (g_line st);
           g_i := g_i st + List.length (tokens_of lines);
           g_list := g_list st ++ map atof (tokens_of lines) |}.
Proof.
  induction lines as [|l lines IH]; intros fuel n st Hfile Hblank Hneed.
  - destruct st as [fp ln i lst]. simpl in *. subst fp.
    now rewrite Nat.add_0_r, app_nil_r.
  - destruct Hneed as [Hnil|Hneed]; [discriminate|].
    inversion Hblank as [|? ? Hl Hrest]; subst.
    cbn [List.length Nat.add grab_loop].
    destruct (Z.ltb_spec (Z.of_nat (g_i st)) n) as [_|Hge]; [|lia].
    unfold grab_body. rewrite Hfile. cbn [app].
    destruct (strtok_all l) as [|ptr more] eqn:Htok; [contradiction|].
    rewrite IH; [| reflexivity | exact Hrest |].
    + cbn [g_fptr g_line g_i g_list buffer_after fold_left].
      unfold tokens_of. cbn [map List.concat]. rewrite Htok.
      f_equal. f_equal.
      * rewrite length_app. cbn [List.length]. lia.
      * rewrite <- app_assoc, map_app. reflexivity.
    + destruct lines as [|l2 lines]; [left; reflexivity | right].
      cbn [g_i]. change (removelast (l :: l2 :: lines))
        with (l :: removelast (l2 :: lines)) in Hneed.
      unfold tokens_of in *. cbn [map List.concat] in Hneed.
      rewrite Htok, length_app in Hneed. cbn [List.length] in *. lia.
Qed.

(** At the end of the file each pass stores the first token of the last
    line once more, until [n] values are there. *)
Lemma grab_loop_at_eof (t : string) :
  forall (fuel : nat) (n : Z) (st : grab_state) (b : string),
    g_fptr st = [] -> g_line st = Some b -> strtok_all b = [t] ->
    (n <= Z.of_nat (fuel + g_i st))%Z ->
    exists st',
      grab_loop fuel n st = Ok st' /\
      g_i st' = Nat.max (g_i st) (Z.to_nat n) /\
      g_list st'
      = g_list st ++ repeat (atof t) (Z.to_nat n - g_i st).
Proof.
  induction fuel as [|fuel IH]; intros n st b Hfile Hline Htok Hfuel.
  - exists st. simpl in *. split; [reflexivity|].
    replace (Z.to_nat n - g_i st) with 0 by lia.
    split; [lia | now rewrite app_nil_r].
  - simpl. destruct (Z.ltb_spec (Z.of_nat (g_i st)) n) as [Hlt|Hge].
    + unfold grab_body. rewrite Hfile, Hline, Htok.
      destruct (IH n {| g_fptr := [];
                        g_line := Some (after_strtok b false);
                        g_i := g_i st + 1 + List.length (@nil string);
                        g_list := g_list st ++ atof t :: map atof [] |}
                  (after_strtok b false))
        as (st' & Hrun & Hi & Hlist).
      * reflexivity.
      * reflexivity.
      * rewrite strtok_all_residue, Htok. reflexivity.
      * simpl. lia.
      * exists st'. simpl in *. split; [exact Hrun|]. split; [lia|].
        rewrite Hlist, <- app_assoc. f_equal.
        replace (Z.to_nat n - g_i st)
          with (S (Z.to_nat n - (g_i st + 1 + 0))) by lia.
        reflexivity.
    + exists st. split; [reflexivity|].
      replace (Z.to_nat n - g_i st) with 0 by lia.
      split; [lia | now rewrite app_nil_r].
Qed.

Lemma buffer_after_last (lines : list string) (line : option string) :
  lines <> [] ->
  buffer_after lines line = Some (after_strtok (last lines ""%string) false).
Proof.
  revert line. induction lines as [|l lines IH]; intros line Hne;
    [contradiction|].
  destruct lines as [|l2 lines]; [reflexivity|].
  change (buffer_after (l :: l2 :: lines) line)
    with (buffer_after (l2 :: lines) (Some (after_strtok l false))).
  rewrite IH by discriminate. reflexivity.
Qed.

End GrabLines.

Lemma tokens_of_app (a b : list string) :
  tokens_of (a ++ b) = tokens_of a ++ tokens_of b.
Proof. unfold tokens_of. now rewrite map_app, concat_app. Qed.

Section GrabOutcomes.
Context {num : Type} `{DoubleOps num}.

Lemma grab_loop_done (fuel : nat) (n : Z) (st : grab_state) :
  (n <= Z.of_nat (g_i st))%Z -> grab_loop fuel n st = Ok st.
Proof.
  intros Hdone. destruct fuel; simpl; [reflexivity|].
  destruct (Z.ltb_spec (Z.of_nat (g_i st)) n); [lia | reflexivity].
Qed.

(** read_file once the size check has passed, by the outcome of grab. *)
Lemma read_file_after_check (filename : string) (pf : potential_file) :
  beta_check pf = f_beta_size pf ->
  let n := Int.mul (f_beta_size pf) (f_n_species pf) in
  (forall f, grab (f_tail pf) n = Fault f ->
             read_file filename (Some pf) = Fault f) /\
  (forall st, grab (f_tail pf) n = Ok st -> Z.to_nat n < g_i st ->
              read_file filename (Some pf)
              = Fault (HeapOverrun (Z.to_nat n) (g_i st))) /\
  (forall st, grab (f_tail pf) n = Ok st -> g_i st <= Z.to_nat n ->
              exists ld, read_file filename (Some pf) = Ok ld /\
                         beta ld = g_list st).
Proof.
  intros Hcheck n. unfold read_file. rewrite Hcheck, Z.eqb_refl. simpl.
  fold n. split; [|split].
  - intros f ->. reflexivity.
  - intros st -> Hover.
    destruct (Nat.ltb_spec (Z.to_nat n) (g_i st)); [reflexivity | lia].
  - intros st -> Hfit.
    destruct (Nat.ltb_spec (Z.to_nat n) (g_i st)); [lia|].
    eexists. split; reflexivity.
Qed.

End GrabOutcomes.

(** X5. grab stores whole lines.  When the values before line [l] are
    fewer than [n] and those up to and including [l] are at least [n], the
    pass that reads [l] is the last one, and every token of [l] is stored:
    the number of stored values is the number of tokens up to the end of
    [l], whatever [n] is.  When that number exceeds [n], read_file has
    written past the end of the beta array. *)
Theorem grab_stores_whole_lines
  (num : Type) (ops : DoubleOps num)
  (tail pre rest : list string) (l : string) (n : Z) :
  tail = pre ++ l :: rest ->
  Forall (fun l => strtok_all l <> []) (pre ++ [l]) ->
  (Z.of_nat (List.length (tokens_of pre)) < n)%Z ->
  (n <= Z.of_nat (List.length (tokens_of (pre ++ [l]))))%Z ->
  (exists st,
      grab tail n = Ok st /\
      g_i st = List.length (tokens_of (pre ++ [l])) /\
      g_list st = map atof (tokens_of (pre ++ [l])) /\
      g_fptr st = rest) /\
  (forall filename (pf : @potential_file num),
      f_tail pf = tail ->
      Int.mul (f_beta_size pf) (f_n_species pf) = n ->
      beta_check pf = f_beta_size pf ->
      (n < Z.of_nat (List.length (tokens_of (pre ++ [l]))))%Z ->
      read_file filename (Some pf)
      = Fault (HeapOverrun (Z.to_nat n)
                 (List.length (tokens_of (pre ++ [l]))))).
Proof.
  intros Htail Hblank Hbefore Hreach.
  assert (Hlen : List.length (pre ++ [l]) <= Z.to_nat n).
  { apply Forall_app in Hblank. destruct Hblank as [Hpre _].
    pose proof (nonblank_lines_tokens pre Hpre).
    rewrite length_app. simpl. lia. }
  assert (Hgrab : grab tail n
                  = Ok {| g_fptr := rest;
                          g_line := buffer_after (pre ++ [l]) None;
                          g_i := List.length (tokens_of (pre ++ [l]));
                          g_list := map atof (tokens_of (pre ++ [l])) |}).
  { unfold grab.
    replace (Z.to_nat n)
      with (List.length (pre ++ [l])
            + (Z.to_nat n - List.length (pre ++ [l]))) by lia.
    rewrite (grab_loop_lines (pre ++ [l]) rest).
    - apply grab_loop_done. simpl. exact Hreach.
    - simpl. rewrite Htail, <- app_assoc. reflexivity.
    - exact Hblank.
    - right. rewrite removelast_last. simpl. exact Hbefore. }
  split.
  - eexists. split; [exact Hgrab|]. repeat split.
  - intros filename pf Hpf Hn Hcheck Hover.
    destruct (read_file_after_check filename pf Hcheck) as (_ & Hfault & _).
    rewrite Hn, Hpf in Hfault.
    rewrite (Hfault _ Hgrab); [reflexivity|]. simpl. lia.
Qed.

Lemma grab_stores_whole_lines_witness :
  exists st,
    grab ["1 2"; "3 4 5"; "6"]%string 4 = Ok st /\
    g_i st = 5 /\ g_list st = [1; 2; 3; 4; 5]%Z /\
    g_fptr st = ["6"%string].
Proof.
  destruct (grab_stores_whole_lines Z ExactZ.ops
              ["1 2"; "3 4 5"; "6"]%string ["1 2"%string] ["6"%string]
              "3 4 5"%string 4) as [(st & Hrun & Hi & Hlist & Hfile) _].
  - reflexivity.
  - repeat constructor; vm_compute; discriminate.
  - vm_compute. reflexivity.
  - vm_compute. discriminate.
  - exists st. repeat split; assumption.
Defined.

(** X6. A file that ends too early is not refused.  When the lines of the
    tail, none of them blank, hold fewer than [n] values, grab stores them
    and then fills the remaining entries with the first value of the last
    line; read_file loads the padded array. *)
Theorem grab_pads_short_file
  (num : Type) (ops : DoubleOps num) (lines : list string) (n : Z) :
  lines <> [] ->
  Forall (fun l => strtok_all l <> []) lines ->
  (Z.of_nat (List.length (tokens_of lines)) < n)%Z ->
  let padded :=
    map atof (tokens_of lines)
    ++ repeat (atof (hd ""%string (strtok_all (last lines ""%string))))
         (Z.to_nat n - List.length (tokens_of lines)) in
  (exists st, grab lines n = Ok st /\ g_i st = Z.to_nat n /\
              g_list st = padded) /\
  (forall filename (pf : @potential_file num),
      f_tail pf = lines ->
      Int.mul (f_beta_size pf) (f_n_species pf) = n ->
      beta_check pf = f_beta_size pf ->
      exists ld, read_file filename (Some pf) = Ok ld /\ beta ld = padded).
Proof.
  intros Hne Hblank Hshort padded.
  pose proof (nonblank_lines_tokens lines Hblank) as Hcount.
  assert (Hlast : strtok_all (last lines ""%string) <> []).
  { rewrite Forall_forall in Hblank. apply Hblank.
    destruct lines as [|l0 lines0]; [contradiction|].
    apply (@exists_last _ (l0 :: lines0)) in Hne.
    destruct Hne as (front & final & Heq). rewrite Heq.
    rewrite last_last. apply in_or_app. right. left. reflexivity. }
  assert (Hwalk : grab lines n
                  = grab_loop (Z.to_nat n - List.length lines) n
                      {| g_fptr := [];
                         g_line := Some (after_strtok (last lines ""%string)
                                           false);
                         g_i := List.length (tokens_of lines);
                         g_list := map atof (tokens_of lines) |}).
  { unfold grab.
    replace (Z.to_nat n)
      with (List.length lines + (Z.to_nat n - List.length lines)) at 1
      by lia.
    rewrite (grab_loop_lines lines []).
    - cbn [g_line g_i g_list Nat.add app].
      rewrite (buffer_after_last lines None Hne). reflexivity.
    - simpl. now rewrite app_nil_r.
    - exact Hblank.
    - right. cbn [g_i Nat.add].
      rewrite (app_removelast_last ""%string Hne) in Hshort.
      rewrite tokens_of_app, length_app in Hshort. lia. }
  assert (Hgrab : exists st, grab lines n = Ok st /\ g_i st = Z.to_nat n /\
                             g_list st = padded).
  { rewrite Hwalk.
    destruct (strtok_all (last lines ""%string)) as [|t more] eqn:Htok;
      [contradiction|].
    destruct (grab_loop_at_eof t (Z.to_nat n - List.length lines) n
                {| g_fptr := [];
                   g_line := Some (after_strtok (last lines ""%string)
                                     false);
                   g_i := List.length (tokens_of lines);
                   g_list := map atof (tokens_of lines) |}
                (after_strtok (last lines ""%string) false))
      as (st & Hrun & Hi & Hlist).
    + reflexivity.
    + reflexivity.
    + rewrite strtok_all_residue, Htok. reflexivity.
    + simpl. lia.
    + exists st. split; [exact Hrun|]. simpl in Hi, Hlist.
      split; [lia|]. subst padded. try rewrite Htok. exact Hlist. }
  split; [exact Hgrab|].
  intros filename pf Hpf Hn Hcheck.
  destruct Hgrab as (st & Hrun & Hi & Hlist).
  destruct (read_file_after_check filename pf Hcheck) as (_ & _ & Hok).
  rewrite Hn, Hpf in Hok.
  destruct (Hok st Hrun ltac:(lia)) as (ld & Hld & Hbeta).
  exists ld. split; [exact Hld | congruence].
Qed.

Lemma grab_pads_short_file_witness :
  exists st,
    grab ["1 2"; "3 4"]%string 6 = Ok st /\
    g_list st = [1; 2; 3; 4; 3; 3]%Z.
Proof.
  destruct (grab_pads_short_file Z ExactZ.ops ["1 2"; "3 4"]%string 6)
    as [(st & Hrun & _ & Hlist) _].
  - discriminate.
  - repeat constructor; vm_compute; discriminate.
  - vm_compute. reflexivity.
  - exists st. split; [exact Hrun | exact Hlist].
Defined.

(** X7. A blank line among the lines grab still needs is fatal: strtok
    finds no token and the null pointer goes to atof.  read_file inherits
    the fault. *)
Theorem grab_blank_line_faults
  (num : Type) (ops : DoubleOps num)
  (tail pre rest : list string) (blank : string) (n : Z) :
  tail = pre ++ blank :: rest ->
  Forall (fun l => strtok_all l <> []) pre ->
  strtok_all blank = [] ->
  (Z.of_nat (List.length (tokens_of pre)) < n)%Z ->
  grab tail n = Fault NullToken /\
  (forall filename (pf : @potential_file num),
      f_tail pf = tail ->
      Int.mul (f_beta_size pf) (f_n_species pf) = n ->
      beta_check pf = f_beta_size pf ->
      read_file filename (Some pf) = Fault NullToken).
Proof.
  intros Htail Hpre Hblank Hneed.
  pose proof (nonblank_lines_tokens pre Hpre) as Hcount.
  assert (Hgrab : grab tail n = Fault NullToken).
  { unfold grab.
    replace (Z.to_nat n)
      with (List.length pre + S (Z.to_nat n - List.length pre - 1)) by lia.
    rewrite (grab_loop_lines pre (blank :: rest)).
    - cbn [grab_loop g_i Nat.add].
      destruct (Z.ltb_spec (Z.of_nat (List.length (tokens_of pre))) n);
        [|lia].
      unfold grab_body. cbn [g_fptr]. rewrite Hblank. reflexivity.
    - simpl. exact Htail.
    - exact Hpre.
    - destruct pre as [|p pre']; [left; reflexivity | right].
      cbn [g_i Nat.add].
      rewrite (@app_removelast_last _ (p :: pre') ""%string) in Hneed
        by discriminate.
      rewrite tokens_of_app, length_app in Hneed. lia. }
  split; [exact Hgrab|].
  intros filename pf Hpf Hn Hcheck.
  destruct (read_file_after_check filename pf Hcheck) as (Hfault & _).
  rewrite Hn, Hpf in Hfault. exact (Hfault _ Hgrab).
Qed.

Lemma grab_blank_line_faults_witness :
  grab ["1 2"; " "; "3"]%string 3 = Fault NullToken.
Proof.
  destruct (grab_blank_line_faults Z ExactZ.ops ["1 2"; " "; "3"]%string
              ["1 2"%string] ["3"%string] " "%string 3) as [Hgrab _].
  - reflexivity.
  - repeat constructor; vm_compute; discriminate.
  - reflexivity.
  - vm_compute. reflexivity.
  - exact Hgrab.
Defined.

(** ** What the identifier tokens decide, and what they do not *)

(** X8. The two identifier tokens of a potential file decide the basis
    and cutoff strategies and nothing else.  Put any other tokens in their
    place: the load ends the same way (the same error, the same fault, or
    success), and on success with the same sizes, the same beta array and
    the same matrices; the strategies are those of the new tokens, unset
    for a token that is not a known name. *)
Theorem read_file_tokens_only_choose_strategies
  (num : Type) (ops : DoubleOps num) (filename : string)
  (pf : @potential_file num) (radial cut : string) :
  let pf' := {| f_radial_string := radial;
                f_n_species := f_n_species pf;
                f_n_max := f_n_max pf;
                f_l_max := f_l_max pf;
                f_beta_size := f_beta_size pf;
                f_cutoff_string := cut;
                f_cutoff := f_cutoff pf;
                f_tail := f_tail pf |} in
  match read_file filename (Some pf), read_file filename (Some pf') with
  | Ok ld, Ok ld' =>
      n_descriptors ld' = n_descriptors ld /\
      n_species ld' = n_species ld /\
      cutoff ld' = cutoff ld /\
      beta ld' = beta ld /\
      beta_matrices ld' = beta_matrices ld /\
      basis_function ld'
      = (if String.eqb radial "chebyshev" then Some chebyshev else None) /\
      radial_hyps ld'
      = (if String.eqb radial "chebyshev" then [dzero; cutoff ld] else []) /\
      cutoff_function ld'
      = (if String.eqb cut "quadratic" then Some quadratic_cutoff
         else if String.eqb cut "cosine" then Some cos_cutoff else None)
  | Error msg, Error msg' => msg' = msg
  | Fault f, Fault f' => f' = f
  | _, _ => False
  end.
Proof.
  intros pf'. subst pf'. unfold read_file, beta_check, descriptor_count.
  cbn [f_beta_size f_n_species f_tail f_radial_string f_cutoff_string
         f_cutoff f_n_max f_l_max].
  match goal with
  | |- context [negb ?b] => destruct (negb b); [reflexivity|]
  end.
  destruct (grab (f_tail pf) (Int.mul (f_beta_size pf) (f_n_species pf)))
    as [st|msg|f]; try reflexivity.
  destruct (Z.to_nat (Int.mul (f_beta_size pf) (f_n_species pf)) <? g_i st);
    [reflexivity|].
  cbn [n_descriptors n_species cutoff beta beta_matrices basis_function
         radial_hyps cutoff_function fst snd].
  destruct (String.eqb radial "chebyshev"); repeat split.
Qed.

(** ** Every value of the beta array is read once *)

Lemma row_start_next (D i j : nat) :
  i <= j -> j < D -> row_start D i + (j - i) < row_start D (S i).
Proof. intros Hij Hj. simpl. lia. Qed.

Lemma beta_index_injective (D k i j k' i' j' : nat) :
  i <= j -> j < D -> i' <= j' -> j' < D ->
  beta_index D k i j = beta_index D k' i' j' ->
  k = k' /\ i = i' /\ j = j'.
Proof.
  intros Hij Hj Hij' Hj' Heq. unfold beta_index in Heq.
  pose proof (pair_in_block D i j Hij Hj) as Hq.
  pose proof (pair_in_block D i' j' Hij' Hj') as Hq'.
  assert (Hk : k = k') by nia. subst k'.
  split; [reflexivity|].
  assert (Hi : i = i').
  { destruct (Nat.lt_trichotomy i i') as [Hlt|[Heqi|Hgt]]; [|exact Heqi|].
    - pose proof (row_start_next D i j Hij Hj).
      pose proof (row_start_mono D (S i) i' ltac:(lia)). lia.
    - pose proof (row_start_next D i' j' Hij' Hj').
      pose proof (row_start_mono D (S i') i ltac:(lia)). lia. }
  subst i'. split; [reflexivity | lia].
Qed.

(** Every position of a species' block is the position of a pair. *)
Lemma row_start_covers (D r q : nat) :
  r <= D -> q < row_start D r ->
  exists i j, i <= j /\ j < D /\ row_start D i + (j - i) = q.
Proof.
  induction r as [|r IH]; intros Hr Hq; [simpl in Hq; lia|].
  simpl in Hq.
  destruct (Nat.lt_ge_cases q (row_start D r)) as [Hlow|Hhigh].
  - apply IH; [lia | exact Hlow].
  - exists r, (r + (q - row_start D r)). repeat split; lia.
Qed.

Lemma beta_index_covers (D ns p : nat) :
  p < ns * row_start D D ->
  exists k i j, k < ns /\ i <= j /\ j < D /\ beta_index D k i j = p.
Proof.
  intros Hp.
  assert (HT : 0 < row_start D D) by nia.
  pose proof (Nat.div_mod_eq p (row_start D D)) as Hdiv.
  pose proof (Nat.mod_upper_bound p (row_start D D) ltac:(lia)) as Hmod.
  destruct (row_start_covers D D (p mod row_start D D) (le_n D) Hmod)
    as (i & j & Hij & Hj & Hq).
  exists (p / row_start D D), i, j.
  split; [apply Nat.Div0.div_lt_upper_bound; lia|].
  split; [exact Hij|]. split; [exact Hj|].
  unfold beta_index. rewrite <- Nat.add_assoc, Hq. lia.
Qed.

(** X9. After a successful load there is one matrix per species, and the
    fill loops have taken each upper-triangular entry of each species, and
    its mirror image, from a position of its own in the beta array: entry
    [(i, j)], [i <= j], of species [k] holds the value at position
    [beta_index D k i j] (halved off the diagonal), and different entries
    have different positions.  When the header arithmetic does not
    overflow, every position of the array is the position of such an
    entry: every value read from the file is used for exactly one entry and
    its mirror image. *)
Theorem read_file_uses_each_value_once
  (num : Type) (ops : DoubleOps num)
  (filename : string) (pf : potential_file) (ld : loaded) :
  read_file filename (Some pf) = Ok ld ->
  let D := Z.to_nat (n_descriptors ld) in
  let ns := Z.to_nat (n_species ld) in
  List.length (beta_matrices ld) = ns /\
  fst (fill_beta_matrices (beta ld) ns D) = ns * row_start D D /\
  (forall k i j, k < ns -> i <= j -> j < D ->
     nth k (beta_matrices ld) Zero i j
     = stored (beta ld) (beta_index D k i j) i j /\
     nth k (beta_matrices ld) Zero j i
     = stored (beta ld) (beta_index D k i j) j i) /\
  (forall k i j k' i' j',
      i <= j -> j < D -> i' <= j' -> j' < D ->
      beta_index D k i j = beta_index D k' i' j' ->
      k = k' /\ i = i' /\ j = j') /\
  (forall k i j, k < ns -> i <= j -> j < D ->
                 beta_index D k i j < ns * row_start D D) /\
  ((0 < n_descriptors ld)%Z -> (0 <= n_species ld)%Z ->
   Int.in_range (n_descriptors ld * (n_descriptors ld + 1)) ->
   Int.in_range (beta_size ld * n_species ld) ->
   List.length (beta ld) = ns * row_start D D /\
   forall p, p < List.length (beta ld) ->
     exists k i j, k < ns /\ i <= j /\ j < D /\ beta_index D k i j = p /\
       nth k (beta_matrices ld) Zero i j = stored (beta ld) p i j /\
       nth k (beta_matrices ld) Zero j i = stored (beta ld) p j i).
Proof.
  intros Hread D ns.
  destruct (read_file_ok _ _ _ Hread) as (_ & _ & _ & _ & _ & _ & _ & Hmat).
  destruct (fill_beta_matrices_spec (beta ld) D ns) as (Hcount & Hlen & _).
  assert (Hentry : forall k i j, k < ns -> i <= j -> j < D ->
             nth k (beta_matrices ld) Zero i j
             = stored (beta ld) (beta_index D k i j) i j /\
             nth k (beta_matrices ld) Zero j i
             = stored (beta ld) (beta_index D k i j) j i).
  { intros k i j Hk Hij Hj.
    rewrite !(loaded_matrix_entry filename pf ld k) by assumption.
    fold D.
    rewrite (Nat.min_comm j i), (Nat.max_comm j i).
    rewrite Nat.min_l, Nat.max_r by lia.
    destruct (Nat.ltb_spec i D), (Nat.ltb_spec j D); try lia.
    split; reflexivity. }
  split; [rewrite Hmat; exact Hlen|].
  split; [exact Hcount|].
  split; [exact Hentry|].
  split; [intros k i j k' i' j'; apply beta_index_injective|].
  split.
  - intros k i j Hk Hij Hj. unfold beta_index.
    pose proof (pair_in_block D i j Hij Hj). nia.
  - intros HD Hns HDD Hn.
    pose proof (loaded_beta_length filename pf ld Hread HD Hns HDD Hn)
      as Hall.
    fold D ns in Hall. split; [exact Hall|].
    intros p Hp. rewrite Hall in Hp.
    destruct (beta_index_covers D ns p Hp) as (k & i & j & Hk & Hij & Hj & <-).
    exists k, i, j. repeat split; try assumption;
      apply (Hentry k i j Hk Hij Hj).
Qed.

Lemma read_file_uses_each_value_once_witness :
  exists ld,
    read_file "flare.std" (Some Samples.three_descriptors) = Ok ld /\
    List.length (beta_matrices ld) = 1 /\ List.length (beta ld) = 6 /\
    exists k i j, k < 1 /\ i <= j /\ j < 3 /\ beta_index 3 k i j = 4.
Proof.
  destruct (read_file "flare.std" (Some Samples.three_descriptors))
    as [ld|msg|f] eqn:Hread; [|vm_compute in Hread; discriminate ..].
  exists ld. split; [reflexivity|].
  destruct (read_file_uses_each_value_once Z ExactZ.ops "flare.std"
              Samples.three_descriptors ld Hread)
    as (Hmats & _ & _ & _ & _ & Hall).
  assert (Hnd : n_descriptors ld = 3%Z /\ n_species ld = 1%Z
                /\ beta_size ld = 6%Z).
  { vm_compute in Hread. injection Hread as <-. repeat split. }
  destruct Hnd as (Hnd & Hns & Hbs).
  rewrite Hnd, Hns, Hbs in *.
  destruct Hall as [Hlen Hcover];
    [lia | lia | unfold Int.in_range; simpl; lia ..|].
  split; [exact Hmats|]. split; [exact Hlen|].
  destruct (Hcover 4) as (k & i & j & Hk & Hij & Hj & Hidx & _).
  - rewrite Hlen. simpl. lia.
  - exists k, i, j. repeat split; assumption.
Defined.

(** ** Packing on one side, unpacking on the other *)

(** X10. A reverse communication carried out with the pair: what
    [pack_reverse_comm] takes from the atoms [first .. first + n - 1] of
    one compute, [unpack_reverse_comm] adds to the atoms [list[0 .. n-1]]
    of the other, atom [first + i] onto atom [list[i]], component by
    component.  A destination listed once gains exactly its source row, an
    atom not listed keeps its row, and neither the derivative table nor
    the loaded potential of the receiver changes. *)
Theorem reverse_comm_transfers_rows
  (num : Type) (ops : DoubleOps num) (src dst : @compute num)
  (n first : nat) (list : nat -> nat) (buf : array1 num) :
  let dst' := unpack_reverse_comm dst n list
                (snd (pack_reverse_comm src n first buf)) in
  (forall j comp, comp < 3 ->
     stds dst' j comp
     = fold_left dadd
         (map (fun i => stds src (first + i) comp)
            (filter (fun i => list i =? j) (seq 0 n)))
         (stds dst j comp)) /\
  (forall i comp, i < n -> comp < 3 ->
     (forall i', i' < n -> list i' = list i -> i' = i) ->
     stds dst' (list i) comp
     = dadd (stds dst (list i) comp) (stds src (first + i) comp)) /\
  (forall j comp, comp < 3 -> (forall i, i < n -> list i <> j) ->
     stds dst' j comp = stds dst j comp) /\
  desc_derv dst' = desc_derv dst /\ potential dst' = potential dst.
Proof.
  intros dst'.
  destruct (pack_loop src n first 0 buf) as (_ & Hin & _).
  fold (pack_reverse_comm src n first buf) in Hin.
  destruct (unpack_loop list (snd (pack_reverse_comm src n first buf))
              (stds dst) n) as [_ Hsum].
  assert (Hfold : forall j comp, comp < 3 ->
             stds dst' j comp
             = fold_left dadd
                 (map (fun i => stds src (first + i) comp)
                    (filter (fun i => list i =? j) (seq 0 n)))
                 (stds dst j comp)).
  { intros j comp Hcomp.
    change (stds dst' j comp)
      with (snd (for_ n 0
                   (fun i =>
                      let j := list i in
                      for_ 3 0
                        (fun comp (st : nat * array2 num) =>
                           let (m, s) := st in
                           (S m,
                            aset2 s j comp
                              (dadd (s j comp)
                                 (snd (pack_reverse_comm src n first buf)
                                    m)))))
                   (0, stds dst)) j comp).
    rewrite (Hsum j comp Hcomp). unfold received. f_equal.
    apply map_ext_in. intros i Hi.
    apply filter_In in Hi. destruct Hi as [Hi _].
    apply in_seq in Hi. exact (Hin i comp ltac:(lia) Hcomp). }
  split; [exact Hfold|]. split; [|split; [|split; reflexivity]].
  - intros i comp Hi Hcomp Huniq. rewrite Hfold by exact Hcomp.
    rewrite (filter_seq_unique list i n Hi Huniq). reflexivity.
  - intros j comp Hcomp Hnone. rewrite Hfold by exact Hcomp.
    rewrite (filter_seq_none list j n Hnone). reflexivity.
Qed.

Lemma reverse_comm_transfers_rows_witness :
  stds (unpack_reverse_comm Samples.numbered_compute 2 (fun i => i)
          (snd (pack_reverse_comm Samples.numbered_compute 2 2
                  (fun _ => 0%Z)))) 1 2
  = 44%Z.
Proof.
  destruct (reverse_comm_transfers_rows Z ExactZ.ops
              Samples.numbered_compute Samples.numbered_compute 2 2
              (fun i => i) (fun _ => 0%Z)) as (_ & Honce & _).
  exact (Honce 1 2 ltac:(lia) ltac:(lia) ltac:(intros; assumption)).
Defined.

(** ** The two walks over the neighbors agree *)

Section WalksAgree.
Context {num : Type} `{DoubleOps num}.
Hypothesis exact : ExactArith num.
Variable B2_env_dervs_of :
  @host num -> @compute num -> nat -> nat -> array2 num.

Add Ring num_ring_walks :
  (exact : ring_theory dzero dunit dadd dmul dsub dopp (@eq num)).

(** The first walk measures from the atom to the neighbor, the second
    from the neighbor to the atom: the squared distance is the same. *)
Lemma inside_cutoff_swapped (c : @compute num) (a1 a2 a3 b1 b2 b3 : num) :
  inside_cutoff c (dsub a1 b1) (dsub a2 b2) (dsub a3 b3)
  = inside_cutoff c (dsub b1 a1) (dsub b2 a2) (dsub b3 a3).
Proof.
  unfold inside_cutoff. cbv zeta. f_equal. ring.
Qed.

Lemma second_walk_counts (h : @host num) (c : @compute num) (i : nat)
  (d : array2 num) :
  fst (second_walk B2_env_dervs_of h c i d) = count_inner h c i.
Proof.
  unfold second_walk, count_inner. cbv zeta.
  generalize (B2_env_dervs_of h c i
                (for_ (numneigh h i) 0
                   (fun jj n_inner =>
                      if inside_cutoff c (dsub (x h (firstneigh h i jj) 0)
                                            (x h i 0))
                           (dsub (x h (firstneigh h i jj) 1) (x h i 1))
                           (dsub (x h (firstneigh h i jj) 2) (x h i 2))
                      then S n_inner else n_inner) 0)).
  intros B.
  induction (numneigh h i) as [|n IH]; [reflexivity|].
  rewrite !for_snoc. simpl Nat.add.
  match goal with
  | |- context [for_ n 0 ?body (0, d)] =>
      destruct (for_ n 0 body (0, d)) as [n_count d1] eqn:Hloop
  end.
  simpl in IH. rewrite <- IH.
  rewrite (inside_cutoff_swapped c (x h (firstneigh h i n) 0)
             (x h (firstneigh h i n) 1) (x h (firstneigh h i n) 2)).
  destruct (inside_cutoff c _ _ _); reflexivity.
Qed.

End WalksAgree.

(** X11. The two walks over the neighbors of an atom find the same
    neighbors inside the cutoff: when the second walk ends, its row counter
    n_count equals the n_inner the first walk handed to the descriptor
    library, so the rows taken from B2_env_dervs are the first
    [3 * n_inner] ones (exact arithmetic). *)
Theorem second_walk_matches_first
  (num : Type) (ops : DoubleOps num) (exact : ExactArith num)
  (B2_env_dervs_of : @host num -> @compute num -> nat -> nat -> array2 num)
  (h : @host num) (c : @compute num) (i : nat) (d : array2 num) :
  accumulate_atom B2_env_dervs_of h c i d
  = snd (second_walk B2_env_dervs_of h c i d) /\
  fst (second_walk B2_env_dervs_of h c i d) = count_inner h c i.
Proof.
  split; [reflexivity|].
  exact (second_walk_counts exact B2_env_dervs_of h c i d).
Qed.

Lemma second_walk_matches_first_witness :
  fst (second_walk Samples.along_x Samples.two_atoms
         (Samples.fresh_compute Samples.three_descriptors) 0
         Samples.unassigned) = 1.
Proof.
  destruct (second_walk_matches_first Z ExactZ.ops ExactZ.exact
              Samples.along_x Samples.two_atoms
              (Samples.fresh_compute Samples.three_descriptors) 0
              Samples.unassigned) as [_ Hcount].
  rewrite Hcount. vm_compute. reflexivity.
Defined.

(** ** Atoms without neighbors inside the cutoff *)

Lemma fold_left_ext_in (A C : Type) (g g' : C -> A -> C) (l : list A)
  (v : C) :
  (forall v a, In a l -> g v a = g' v a) ->
  fold_left g l v = fold_left g' l v.
Proof.
  revert v. induction l as [|a l IH]; intros v Hg; simpl; [reflexivity|].
  rewrite Hg by (left; reflexivity).
  apply IH. intros v' a' Ha'. apply Hg. right. exact Ha'.
Qed.

Lemma upper_pairs_in (D : nat) (p : nat * nat) :
  In p (upper_pairs D) -> fst p <= snd p /\ snd p < D.
Proof.
  unfold upper_pairs. intros Hp.
  apply in_flat_map in Hp. destruct Hp as (nl1 & Hnl1 & Hp).
  apply in_map_iff in Hp. destruct Hp as (nl2 & <- & Hnl2).
  apply in_seq in Hnl1, Hnl2. simpl. lia.
Qed.

Section ListedAtoms.
Context {num : Type} `{DoubleOps num}.
Variable B2_env_dervs_of :
  @host num -> @compute num -> nat -> nat -> array2 num.

(** The value compute_peratom leaves for an atom of the neighbor list. *)
Lemma compute_peratom_stds_listed (h : @host num) (c : @compute num)
  (ii comp : nat) :
  ii < inum h ->
  inum h <= ntotal h ->
  (forall ii1 ii2, ii1 < inum h -> ii2 < inum h ->
                   ilist h ii1 = ilist h ii2 -> ii1 = ii2) ->
  comp < 3 ->
  stds (compute_peratom B2_env_dervs_of h c) (ilist h ii) comp
  = quad_upper (ndesc c)
      (desc_derv (compute_peratom B2_env_dervs_of h c))
      (nth (type h (ilist h ii) - 1) (beta_matrices (potential c)) Zero)
      (row (ilist h ii) comp).
Proof.
  intros Hii Hinum Hinj Hcomp.
  destruct (before_evaluate B2_env_dervs_of h c) as [Hpot Hzero].
  set (c1 := accumulate B2_env_dervs_of h (reset h (grow h c))) in *.
  unfold compute_peratom. fold c1.
  cbn [evaluate stds desc_derv with_stds].
  rewrite (evaluate_listed h c1 (inum h) ii comp) by assumption.
  rewrite Hzero by (try assumption; lia).
  unfold quad_upper, ndesc. rewrite Hpot. reflexivity.
Qed.

Lemma accumulate_atom_outside (h : @host num) (c : @compute num) (i : nat)
  (d : array2 num) :
  (forall jj, jj < numneigh h i ->
     inside_cutoff c (dsub (x h i 0) (x h (firstneigh h i jj) 0))
       (dsub (x h i 1) (x h (firstneigh h i jj) 1))
       (dsub (x h i 2) (x h (firstneigh h i jj) 2)) = false) ->
  accumulate_atom B2_env_dervs_of h c i d = d.
Proof.
  intros Hout. unfold accumulate_atom.
  match goal with
  | |- snd (for_ ?n 0 ?body ?init) = d =>
      assert (Hloop : for_ n 0 body init = (0, d))
  end.
  { apply for_invariant with (P := fun st => st = (0, d)); [reflexivity|].
    intros jj st Hjj ->. rewrite Hout by lia. reflexivity. }
  rewrite Hloop. reflexivity.
Qed.

End ListedAtoms.

Section ZeroRows.
Context {num : Type} `{DoubleOps num}.
Hypothesis exact : ExactArith num.

Add Ring num_ring_zero :
  (exact : ring_theory dzero dunit dadd dmul dsub dopp (@eq num)).

(** A zero derivative row adds nothing to the running sum. *)
Lemma quad_upper_from_zero_row (v : num) (D : nat) (d Sigma : array2 num)
  (r : nat) :
  (forall nl, nl < D -> d r nl = dzero) ->
  quad_upper_from v D d Sigma r = v.
Proof.
  intros Hzero. unfold quad_upper_from.
  rewrite fold_left_ext_in with (g' := fun v _ => v).
  - induction (upper_pairs D) as [|p l IH]; [reflexivity | exact IH].
  - intros v' p Hp. apply upper_pairs_in in Hp.
    unfold weighted_term, quad_term.
    rewrite (Hzero (fst p)) by lia.
    destruct (fst p =? snd p); ring.
Qed.

End ZeroRows.

(** X12. When no atom of the neighbor list has a neighbor inside the
    cutoff, the accumulation changes nothing in the derivative table, and
    compute_peratom leaves zero in every stds entry of every listed atom
    (exact arithmetic). *)
Theorem compute_peratom_without_neighbors
  (num : Type) (ops : DoubleOps num) (exact : ExactArith num)
  (B2_env_dervs_of : @host num -> @compute num -> nat -> nat -> array2 num)
  (h : @host num) (c : @compute num) :
  inum h <= ntotal h ->
  (forall ii1 ii2, ii1 < inum h -> ii2 < inum h ->
                   ilist h ii1 = ilist h ii2 -> ii1 = ii2) ->
  (forall ii jj, ii < inum h -> jj < numneigh h (ilist h ii) ->
     inside_cutoff c
       (dsub (x h (ilist h ii) 0)
          (x h (firstneigh h (ilist h ii) jj) 0))
       (dsub (x h (ilist h ii) 1)
          (x h (firstneigh h (ilist h ii) jj) 1))
       (dsub (x h (ilist h ii) 2)
          (x h (firstneigh h (ilist h ii) jj) 2)) = false) ->
  desc_derv (compute_peratom B2_env_dervs_of h c)
  = desc_derv (reset h (grow h c)) /\
  (forall ii comp, ii < inum h -> comp < 3 ->
     stds (compute_peratom B2_env_dervs_of h c) (ilist h ii) comp = dzero).
Proof.
  intros Hinum Hinj Hout.
  destruct (after_reset h c) as (Hpot & _ & Hdesc).
  set (c0 := reset h (grow h c)) in *.
  assert (Htable : desc_derv (compute_peratom B2_env_dervs_of h c)
                   = desc_derv c0).
  { unfold compute_peratom. fold c0.
    cbn [evaluate accumulate desc_derv with_stds with_desc_derv].
    apply for_invariant with (P := fun d' => d' = desc_derv c0);
      [reflexivity|].
    intros ii d1 Hii ->. apply accumulate_atom_outside.
    intros jj Hjj. unfold inside_cutoff. rewrite Hpot.
    apply (Hout ii jj); [lia | exact Hjj]. }
  split; [exact Htable|].
  intros ii comp Hii Hcomp.
  rewrite (compute_peratom_stds_listed B2_env_dervs_of h c ii comp)
    by assumption.
  unfold quad_upper. apply (quad_upper_from_zero_row exact).
  intros nl Hnl. rewrite Htable. apply Hdesc; try assumption. lia.
Qed.

Lemma compute_peratom_without_neighbors_witness :
  stds (compute_peratom Samples.along_x MoreSamples.far_apart
          (Samples.fresh_compute Samples.three_descriptors)) 1 0
  = 0%Z.
Proof.
  destruct (compute_peratom_without_neighbors Z ExactZ.ops ExactZ.exact
              Samples.along_x MoreSamples.far_apart
              (Samples.fresh_compute Samples.three_descriptors))
    as [_ Hstds].
  - vm_compute. lia.
  - intros ii1 ii2 _ _ Heq. exact Heq.
  - intros ii jj Hii _.
    destruct ii as [|[|ii]]; [vm_compute; reflexivity .. | cbn in Hii; lia].
  - exact (Hstds 1 0 ltac:(cbn; lia) ltac:(lia)).
Defined.

(** ** The uncertainty in terms of the values of the file *)

Section Halving.
Context {num : Type} `{DoubleOps num}.
Hypothesis exact : ExactArith num.

Add Ring num_ring_half :
  (exact : ring_theory dzero dunit dadd dmul dsub dopp (@eq num)).

Lemma weight_undoes_halving (d1 d2 b : num) :
  dmul (ddiv2 b) dtwo = b ->
  dmul (dmul (dmul d1 (ddiv2 b)) d2) dtwo = dmul (dmul d1 b) d2.
Proof.
  intros Hhalf. rewrite <- Hhalf at 2. ring.
Qed.

End Halving.

(** X13. The factor of two of the evaluation undoes the halving of the
    loader.  When halving the stored values loses nothing, compute_peratom
    leaves in stds[i][comp] of a listed atom the running sum over
    [nl1 <= nl2] of [d[nl1] * b * d[nl2]], where [b] is the value of the
    potential file for the pair [(nl1, nl2)] of the atom's species, with no
    weights (exact arithmetic). *)
Theorem compute_peratom_in_file_values
  (num : Type) (ops : DoubleOps num) (exact : ExactArith num)
  (B2_env_dervs_of : @host num -> @compute num -> nat -> nat -> array2 num)
  (filename : string) (pf : potential_file)
  (h : @host num) (c : @compute num) (ii comp : nat) :
  read_file filename (Some pf) = Ok (potential c) ->
  (forall k, dmul (ddiv2 (nth k (beta (potential c)) dzero)) dtwo
             = nth k (beta (potential c)) dzero) ->
  ii < inum h ->
  inum h <= ntotal h ->
  (forall ii1 ii2, ii1 < inum h -> ii2 < inum h ->
                   ilist h ii1 = ilist h ii2 -> ii1 = ii2) ->
  1 <= type h (ilist h ii) <= Z.to_nat (n_species (potential c)) ->
  comp < 3 ->
  let c' := compute_peratom B2_env_dervs_of h c in
  let i := ilist h ii in
  stds c' i comp
  = quad_raw (beta (potential c)) (ndesc c) (type h i - 1) (desc_derv c')
      (row i comp).
Proof.
  intros Hread Hhalf Hii Hinum Hinj Htype Hcomp c' i.
  unfold c', i.
  rewrite (compute_peratom_stds_listed B2_env_dervs_of h c ii comp)
    by assumption.
  unfold quad_upper, quad_upper_from, quad_raw.
  apply fold_left_ext_in. intros v p Hp.
  apply upper_pairs_in in Hp. destruct Hp as [Hle Hlt].
  f_equal. unfold weighted_term, quad_term.
  rewrite (loaded_matrix_entry filename pf (potential c)
             (type h (ilist h ii) - 1) (fst p) (snd p) Hread)
    by lia.
  fold (ndesc c).
  rewrite Nat.min_l, Nat.max_r by lia.
  destruct (Nat.ltb_spec (fst p) (ndesc c)); [|lia].
  destruct (Nat.ltb_spec (snd p) (ndesc c)); [|lia].
  simpl. unfold stored.
  destruct (fst p =? snd p); [reflexivity|].
  apply (weight_undoes_halving exact). apply Hhalf.
Qed.

Lemma compute_peratom_in_file_values_witness :
  stds (compute_peratom Samples.along_x Samples.two_atoms
          (Samples.fresh_compute Samples.three_descriptors)) 1 0
  = quad_raw [10; 20; 30; 40; 50; 60]%Z 3 0
      (desc_derv (compute_peratom Samples.along_x Samples.two_atoms
                    (Samples.fresh_compute Samples.three_descriptors)))
      (row 1 0).
Proof.
  apply (compute_peratom_in_file_values Z ExactZ.ops ExactZ.exact
           Samples.along_x "flare.std" Samples.three_descriptors
           Samples.two_atoms
           (Samples.fresh_compute Samples.three_descriptors) 1 0).
  - vm_compute. reflexivity.
  - intros k.
    do 7 (destruct k as [|k]; [vm_compute; reflexivity|]).
    vm_compute. reflexivity.
  - vm_compute. lia.
  - vm_compute. lia.
  - simpl. intros ii1 ii2 _ _ Heq. exact Heq.
  - vm_compute. lia.
  - lia.
Defined.

(** ** Atoms the loops do not list *)

Section Unlisted.
Context {num : Type} `{DoubleOps num}.

Lemma zero_atom_elsewhere (i a : nat) (c : @compute num) :
  a <> i ->
  (forall comp, stds (zero_atom i c) a comp = stds c a comp) /\
  (forall comp nl, comp < 3 ->
     desc_derv (zero_atom i c) (row a comp) nl = desc_derv c (row a comp) nl).
Proof.
  intros Hne. unfold zero_atom. cbn [for_].
  destruct (zero_component_spec i 0 c) as (Hs0 & _ & Hd0).
  set (c0 := zero_component i 0 c) in *.
  destruct (zero_component_spec i 1 c0) as (Hs1 & _ & Hd1).
  set (c1 := zero_component i 1 c0) in *.
  destruct (zero_component_spec i 2 c1) as (Hs2 & _ & Hd2).
  set (c2 := zero_component i 2 c1) in *.
  cbv zeta in *. split.
  - intros comp. rewrite Hs2, Hs1, Hs0.
    rewrite !aset2_other by (left; exact Hne). reflexivity.
  - intros comp nl Hcomp. rewrite Hd2, Hd1, Hd0.
    assert (Hrow : forall comp', comp' < 3 ->
               (row a comp =? row i comp') = false).
    { intros comp' Hcomp'. apply Nat.eqb_neq. intros Heq.
      apply row_inj in Heq; [|assumption ..]. destruct Heq. contradiction. }
    rewrite !Hrow by lia. reflexivity.
Qed.

End Unlisted.

(** X14. An atom that is not among [ilist[0 .. ntotal-1]] is out of reach
    of the whole step: the zeroing loop leaves its stds entries and its
    derivative rows as the allocation step handed them over, and
    compute_peratom ends with its stds entries still unwritten. *)
Theorem unlisted_atom_untouched
  (num : Type) (ops : DoubleOps num)
  (B2_env_dervs_of : @host num -> @compute num -> nat -> nat -> array2 num)
  (h : @host num) (c : @compute num) (a : nat) :
  (forall ii, ii < ntotal h -> ilist h ii <> a) ->
  inum h <= ntotal h ->
  (forall comp nl, comp < 3 ->
     desc_derv (reset h (grow h c)) (row a comp) nl
     = desc_derv (grow h c) (row a comp) nl) /\
  (forall comp,
     stds (reset h (grow h c)) a comp = stds (grow h c) a comp) /\
  (forall comp,
     stds (compute_peratom B2_env_dervs_of h c) a comp
     = stds (grow h c) a comp).
Proof.
  intros Hout Hinum.
  assert (Hreset :
            (forall comp,
                stds (reset h (grow h c)) a comp = stds (grow h c) a comp) /\
            (forall comp nl, comp < 3 ->
               desc_derv (reset h (grow h c)) (row a comp) nl
               = desc_derv (grow h c) (row a comp) nl)).
  { unfold reset.
    apply for_invariant with
      (P := fun c' =>
              (forall comp, stds c' a comp = stds (grow h c) a comp) /\
              (forall comp nl, comp < 3 ->
                 desc_derv c' (row a comp) nl
                 = desc_derv (grow h c) (row a comp) nl)).
    - split; reflexivity.
    - intros ii c1 Hii [Hs Hd].
      destruct (zero_atom_elsewhere (ilist h ii) a c1) as [Hs' Hd'].
      { intros Heq. apply (Hout ii); [lia | congruence]. }
      split.
      + intros comp. now rewrite Hs', Hs.
      + intros comp nl Hcomp. now rewrite Hd', Hd. }
  destruct Hreset as [Hs Hd].
  split; [exact Hd|]. split; [exact Hs|].
  intros comp. unfold compute_peratom.
  cbn [evaluate accumulate stds with_stds with_desc_derv].
  rewrite evaluate_untouched; [apply Hs|].
  intros ii Hii. apply Hout. lia.
Qed.

Lemma unlisted_atom_untouched_witness :
  stds (compute_peratom Samples.along_x
          (Samples.atom_and_image (fun _ => 0))
          (Samples.fresh_compute Samples.one_descriptor)) 1 2
  = 9%Z.
Proof.
  destruct (unlisted_atom_untouched Z ExactZ.ops Samples.along_x
              (Samples.atom_and_image (fun _ => 0))
              (Samples.fresh_compute Samples.one_descriptor) 1)
    as (_ & _ & Hstds).
  - intros ii _. simpl. discriminate.
  - vm_compute. lia.
  - rewrite Hstds. reflexivity.
Defined.
